(** * Verification of the QCi tutorial notebooks

    Two notebooks are embedded here:

    - [Set-Partition-Tutorial.ipynb]: the set-partitioning encoder (the
      constraint system [A s = b], the penalty [J], [h], [offset], the QUBO
      matrices [P] and [Q]) and the result interpreter [check_result];
    - the Dirac-3 qudit tutorial: the client adapter [sample_hamiltonian] and
      the response reader [get_results].

    Numbers.  numpy's [int64] and [float64] arrays are both embedded in the
    real numbers [R] with exact arithmetic; rounding is not modelled.
    A 1-D array is a [list R], a 2-D array is the list of its rows.

    Effects.  Python exceptions are the [Raise] case of [result]; printing
    and client calls are recorded in the event log of [eff], which keeps the
    events emitted before an exception. *)

From Stdlib Require Import Reals Lra QArith.
From stdpp Require Import gmap strings list sets.

Set Warnings "-register-all".

(** ** JSON-like Python values (responses of the remote service) *)

Inductive json :=
| JNull                              (* None *)
| JBool (b : bool)
| JInt (z : Z)
| JFloat (q : Q)
| JStr (s : string)
| JList (l : list json)
| JDict (d : gmap string json).

(** ** Exceptions and results *)

Inductive exn :=
| IndexError
| KeyError (k : string)
| TypeError
| AttributeError
| ValueError
| ZeroDivisionError
| AssertionError (msg : string)
| RuntimeError (details : json)      (* f"Execution failed. See details: {details}" *)
| ClientError (msg : string).        (* whatever the vendor SDK raises *)

Inductive result (T : Type) :=
| Return (a : T)
| Raise (e : exn).
Arguments Return {T} a.
Arguments Raise {T} e.

#[export] Instance result_ret : MRet result := @Return.
#[export] Instance result_bind : MBind result := λ _ _ k m,
  match m with
  | Return a => k a
  | Raise e => Raise e
  end.

(** A computation that emits events of type [E] (printed lines, client
    calls) and then returns or raises.  The log survives an exception. *)
Definition eff (E T : Type) : Type := list E * result T.

Definition eff_ret {E T} (a : T) : eff E T := ([], Return a).
Definition eff_bind {E T U} (k : T → eff E U) (m : eff E T) : eff E U :=
  match m with
  | (o, Return a) => let '(o', r) := k a in (o ++ o', r)
  | (o, Raise e) => (o, Raise e)
  end.
#[export] Instance eff_mret {E} : MRet (eff E) := @eff_ret E.
#[export] Instance eff_mbind {E} : MBind (eff E) := @eff_bind E.

Definition emit {E} (e : E) : eff E unit := ([e], Return tt).
Definition lift {E T} (r : result T) : eff E T := ([], r).

(** ** Python container primitives *)

(** [l[i]] for a list and a non-negative index. *)
Definition list_getitem {T} (l : list T) (i : nat) : result T :=
  match l !! i with
  | Some x => Return x
  | None => Raise IndexError
  end.

(** [v[k]] for a string key [k]. *)
Definition py_getitem (v : json) (k : string) : result json :=
  match v with
  | JDict d =>
      match d !! k with
      | Some x => Return x
      | None => Raise (KeyError k)
      end
  | _ => Raise TypeError
  end.

Definition is_substring (k s : string) : bool :=
  match String.index 0 k s with
  | Some _ => true
  | None => false
  end.

Definition is_str (k : string) (v : json) : bool :=
  match v with
  | JStr s => bool_decide (s = k)
  | _ => false
  end.

(** [k in v] for a string [k]: key test on a dict, element test on a list,
    substring test on a string, [TypeError] on anything else. *)
Definition py_in (k : string) (v : json) : result bool :=
  match v with
  | JDict d => Return (bool_decide (is_Some (d !! k)))
  | JList l => Return (existsb (is_str k) l)
  | JStr s => Return (is_substring k s)
  | _ => Raise TypeError
  end.

(** [len(v)] *)
Definition py_len (v : json) : result nat :=
  match v with
  | JDict d => Return (size d)
  | JList l => Return (length l)
  | JStr s => Return (String.length s)
  | _ => Raise TypeError
  end.

(** [list(v.values())] *)
Definition py_values (v : json) : result (list json) :=
  match v with
  | JDict d => Return ((map_to_list d).*2)
  | _ => Raise AttributeError
  end.

Definition is_None (v : json) : bool :=
  match v with
  | JNull => true
  | _ => false
  end.

(** ** Dense linear algebra on lists (numpy's [@], [.T], [+], [*], [diag]) *)

Section linalg.
Local Open Scope R_scope.

(** [u @ v] for two 1-D arrays. *)
Fixpoint dot (u v : list R) : R :=
  match u, v with
  | x :: u', y :: v' => x * y + dot u' v'
  | _, _ => 0
  end.

Definition vscale (c : R) (v : list R) : list R := (λ x, c * x) <$> v.
Definition vadd (u v : list R) : list R := zip_with Rplus u v.
Definition vsub (u v : list R) : list R := zip_with Rminus u v.

(** squared Euclidean norm *)
Definition norm2 (v : list R) : R := dot v v.

(** [M @ v] for a 2-D [M] and a 1-D [v]. *)
Definition matvec (M : list (list R)) (v : list R) : list R :=
  (λ r, dot r v) <$> M.

(** [M.T] for a 2-D array with [n] columns. *)
Fixpoint transpose_n (n : nat) (M : list (list R)) : list (list R) :=
  match M with
  | [] => replicate n []
  | r :: M' => zip_with cons r (transpose_n n M')
  end.

(** The second component of [M.shape]. *)
Definition ncols (M : list (list R)) : nat := length (hd [] M).

Definition transpose (M : list (list R)) : list (list R) :=
  transpose_n (ncols M) M.

(** [u @ M] for a 1-D [u] and a 2-D [M]: entry [j] is the product of [u]
    with column [j] of [M]. *)
Definition vecmat (u : list R) (M : list (list R)) : list R :=
  matvec (transpose M) u.

(** [M @ N] for two 2-D arrays: entry [(i, j)] is row [i] of [M] times
    column [j] of [N]. *)
Definition matmul (M N : list (list R)) : list (list R) :=
  (λ r, vecmat r N) <$> M.

Definition madd (M N : list (list R)) : list (list R) := zip_with vadd M N.
Definition mscale (c : R) (M : list (list R)) : list (list R) :=
  vscale c <$> M.

(** [np.diag(v)] for a 1-D [v]. *)
Definition diag (v : list R) : list (list R) :=
  imap (λ i x, <[i := x]> (replicate (length v) 0)) v.

(** [np.max(M)]: the largest entry; numpy raises [ValueError] on an array
    without entries. *)
Definition np_max (M : list (list R)) : result R :=
  match concat M with
  | [] => Raise ValueError
  | x :: l => Return (foldl Rmax x l)
  end.

(** [s.T @ M @ s], evaluated left to right. *)
Definition quad_form (M : list (list R)) (s : list R) : R :=
  dot (vecmat s M) s.

(** [M[i][j]] *)
Definition entry (M : list (list R)) (i j : nat) : R :=
  nth j (nth i M []) 0.
End linalg.

(** Shapes. *)
Definition rect (m n : nat) (M : list (list R)) : Prop :=
  length M = m ∧ Forall (λ r, length r = n) M.

Definition square (M : list (list R)) : Prop := rect (length M) (length M) M.

Definition symmetric (M : list (list R)) : Prop :=
  ∀ i j, (i < length M)%nat → (j < length M)%nat → entry M i j = entry M j i.

#[export] Instance rect_dec m n M : Decision (rect m n M).
Proof. unfold rect. apply _. Defined.

(** [np.hstack([C.reshape([n, 1]), J])] with [n = C.shape[0]]: [C] holds [n]
    numbers and becomes the first column.  numpy raises [ValueError] unless
    [J] has [n] rows. *)
Definition hstack_col (C : list R) (J : list (list R)) : result (list (list R)) :=
  if decide (length J = length C)
  then Return (zip_with cons C J)
  else Raise ValueError.

(** Equality of reals is decidable (classically); used for [s[i] == 1] on a
    real vector. *)
#[export] Instance R_eq_dec : EqDecision R := Req_dec_T.

(** ** Printed output of [check_result] *)

Inductive line :=
| PQuboValue (e : R)             (* print("QUBO value:", energies[j]) *)
| PTimesFound (c : Z)            (* print("Times sample found", counts[j]) *)
| PObjective (v : R)             (* print("Objective Function value:", ...) *)
| PSelectedSets                  (* print("Selected Sets") *)
| PSet (i : nat)                 (* print(f"S_{i}", end=" ") *)
| PNewline                       (* print() *)
| PCoverage (pct : Q)            (* print(f"Set coverage {pct}%") *)
| PPartitionFound (ok : bool).   (* print(f"Partition found: {ok}") *)

(** The response payload of a [sample-qubo] job as [check_result] reads it. *)
Record qubo_results := {
  samples : list (list Z);
  energies : list R;
  counts : list Z
}.

(** ** The set-partitioning notebook *)

Module SetPartition.
Section notebook.
Context `{Countable K}.
Local Open Scope R_scope.

(** The collection [S] of the data cell is the parameter [Ss]. *)
Implicit Types (Ss : list (gset K)) (sample : list Z).

(** [X = set(); for S_i in S: X = X.union(S_i)] *)
Definition X Ss : gset K := foldl (λ acc S_i, acc ∪ S_i) ∅ Ss.

(** [for x in X: row = [1 if x in S_i else 0 for S_i in S]; A.append(row)].
    [elements] is the order in which Python iterates over the set [X]. *)
Definition A Ss : list (list R) :=
  (λ x, (λ S_i, if decide (x ∈ S_i) then 1 else 0) <$> Ss) <$> elements (X Ss).

(** [b = np.ones((A.shape[0],))] *)
Definition b Ss : list R := replicate (length (A Ss)) 1.

(** [J = A.T@A] *)
Definition J Ss : list (list R) := matmul (transpose (A Ss)) (A Ss).

(** [h = -2 * b.T@A], which Python reads as [(-2 * b.T) @ A]; the later
    [reshape((n, 1))] only changes the shape, and [h.T[0]] is this vector. *)
Definition h Ss : list R := vecmat (vscale (-2) (b Ss)) (A Ss).

(** [offset = b.T@b] *)
Definition offset Ss : R := dot (b Ss) (b Ss).

(** The whole cell.  With an empty [X] the array [A] has no rows, [h] is a
    0-d value and [n = h.shape[0]] raises [IndexError]. *)
Definition penalty Ss : result (list (list R) * list R * R) :=
  if decide (A Ss = []) then Raise IndexError
  else Return (J Ss, h Ss, offset Ss).

(** [P = J + np.diag(h.T[0])] *)
Definition P Ss : list (list R) := madd (J Ss) (diag (h Ss)).

(** *** The result interpreter *)

(** [for i in range(len(S)): if sample[i] == 1: ...], started at index [i]
    on the remaining sets; the state is [(testX, members)]. *)
Fixpoint select_loop (i : nat) Ss sample (st : gset K * list K)
  : eff line (gset K * list K) :=
  match Ss with
  | [] => mret st
  | S_i :: rest =>
      s_i ← lift (list_getitem sample i);
      st' ← (if decide (s_i = 1%Z)
             then emit (PSet i);; mret (st.1 ∪ S_i, st.2 ++ elements S_i)
             else mret st);
      select_loop (S i) rest sample st'
  end.

(** [100*len(testX)/len(X)], kept as a reduced fraction. *)
Definition coverage (testX Xs : gset K) : result Q :=
  if decide (size Xs = 0%nat) then Raise ZeroDivisionError
  else Return (Qred (Z.of_nat (100 * size testX) # Pos.of_nat (size Xs))).

(** [sample.T@objective@sample] after [sample = np.array(sample)]; numpy
    raises [ValueError] when the shapes do not fit. *)
Definition objective_value (objective : list (list R)) sample : result R :=
  let s := IZR <$> sample in
  if decide (rect (length s) (length s) objective)
  then Return (dot (vecmat s objective) s)
  else Raise ValueError.

(** The body of the loop over the samples. *)
Definition check_sample Ss (results : qubo_results)
    (objective : option (list (list R))) (j : nat) sample : eff line unit :=
  e ← lift (list_getitem (energies results) j);
  emit (PQuboValue e);;
  c ← lift (list_getitem (counts results) j);
  emit (PTimesFound c);;
  match objective with
  | Some obj => v ← lift (objective_value obj sample); emit (PObjective v)
  | None => mret tt
  end;;
  emit PSelectedSets;;
  st ← select_loop 0 Ss sample (∅, []);
  emit PNewline;;
  pct ← lift (coverage st.1 (X Ss));
  emit (PCoverage pct);;
  emit (PPartitionFound (bool_decide (size st.1 = length st.2))).

(** [for j, sample in enumerate(samples): ...] from index [j] on. *)
Fixpoint check_loop Ss (results : qubo_results)
    (objective : option (list (list R))) (j : nat) (todo : list (list Z))
  : eff line unit :=
  match todo with
  | [] => mret tt
  | sample :: rest =>
      check_sample Ss results objective j sample;;
      check_loop Ss results objective (S j) rest
  end.

Definition check_result Ss (results : qubo_results)
    (objective : option (list (list R))) : eff line unit :=
  check_loop Ss results objective 0 (samples results).

(** *** The weighted problem *)

(** [W = [100 * np.random.random() for S_i in S]]; [rand k] is the [k]-th
    draw of the seeded generator. *)
Definition W (rand : nat → R) Ss : list R := imap (λ k _, 100 * rand k) Ss.

(** [objective = np.diag([W[i] for i in range(len(S))])] for a weight list
    with one entry per set. *)
Definition objective Ss (Ws : list R) : list (list R) :=
  diag ((λ i, nth i Ws 0) <$> seq 0 (length Ss)).

(** [alpha = np.max(objective)] *)
Definition alpha Ss (Ws : list R) : result R := np_max (objective Ss Ws).

(** [Q = objective + alpha * P] *)
Definition Q Ss (Ws : list R) : result (list (list R)) :=
  a ← alpha Ss Ws;
  mret (madd (objective Ss Ws) (mscale a (P Ss))).

(** *** Specification vocabulary *)

(** Set [i] is selected by a sample whose entry [i] equals [one]. *)
Definition selected {T} (one : T) (s : list T) (i : nat) : Prop :=
  s !! i = Some one.

(** Element [x] is a member of the set [S_i]. *)
Definition covers Ss (x : K) (i : nat) : Prop :=
  ∃ S_i, Ss !! i = Some S_i ∧ x ∈ S_i.

(** Set partitioning: every element of the universe belongs to exactly one
    selected set. *)
Definition exact_cover Ss (sel : nat → Prop) : Prop :=
  ∀ x, x ∈ X Ss →
    ∃ i, (sel i ∧ covers Ss x i) ∧ ∀ k, sel k ∧ covers Ss x k → k = i.

(** The selected sets are pairwise disjoint. *)
Definition pairwise_disjoint Ss (sel : nat → Prop) : Prop :=
  ∀ i k S_i S_k, i ≠ k → sel i → sel k →
    Ss !! i = Some S_i → Ss !! k = Some S_k → S_i ## S_k.

Definition binary_R (s : list R) : Prop := Forall (λ v, v = 0 ∨ v = 1) s.

Definition binary sample : Prop := Forall (λ v, v = 0%Z ∨ v = 1%Z) sample.

(** The selected sets, in index order. *)
Fixpoint picked {T} `{EqDecision T} (one : T) Ss (s : list T)
  : list (gset K) :=
  match Ss, s with
  | S_i :: rest, s_i :: s' =>
      if decide (s_i = one) then S_i :: picked one rest s'
      else picked one rest s'
  | _, _ => []
  end.

(** In how many sets of [l] the element [x] lies. *)
Definition multiplicity (x : K) (l : list (gset K)) : nat :=
  length (filter (λ S_i, x ∈ S_i) l).

(** The sum of the weights [W_i] over the sets with [sample[i] == 1]. *)
Fixpoint selected_weight (Ws : list R) sample : R :=
  match Ws, sample with
  | w :: Ws', s_i :: sample' =>
      (if decide (s_i = 1%Z) then w else 0) + selected_weight Ws' sample'
  | _, _ => 0
  end.

(** A response that fits the problem: one energy and one count per sample,
    binary samples with one entry per set, and an objective matrix (when
    one is passed) with one row and one column per set. *)
Definition well_formed Ss (results : qubo_results)
    (objective : option (list (list R))) : Prop :=
  length (energies results) = length (samples results) ∧
  length (counts results) = length (samples results) ∧
  Forall (λ sample, length sample = length Ss ∧ binary sample)
    (samples results) ∧
  match objective with
  | Some obj => rect (length Ss) (length Ss) obj
  | None => True
  end.
End notebook.

(** The data cell of the notebook. *)
Definition S_data : list (gset string) :=
  [ {["A"; "B"; "C"]}; {["D"; "E"; "F"]}; {["A"; "F"]}; {["B"; "E"]};
    {["C"; "D"]}; {["A"]}; {["B"]}; {["C"; "D"; "E"]}; {["B"; "C"]} ].

(** The response of the penalty-only run, read off the printed output: the
    samples select [S_2 S_6 S_7], [S_2 S_3 S_4] and [S_0 S_1]. *)
Definition response_data : qubo_results :=
  {| samples := [ [0; 0; 1; 0; 0; 0; 1; 1; 0]; [0; 0; 1; 1; 1; 0; 0; 0; 0];
                  [1; 1; 0; 0; 0; 0; 0; 0; 0] ]%Z;
     energies := [-6; -6; -6]%R;
     counts := [2; 2; 1]%Z |}.

(** A response whose only sample selects no set. *)
Definition empty_selection : qubo_results :=
  {| samples := [replicate 9 0%Z]; energies := [0%R]; counts := [1%Z] |}.
End SetPartition.

(** ** The Dirac-3 qudit notebook *)

Module Qudit.
(** [{"file_name": ..., "file_config": {"hamiltonian": {"data": H}}}] *)
Record ham_file := {
  file_name : string;
  hamiltonian_data : list (list R)
}.

(** The [job_params] dictionary; field [p_k] is the entry under key ["k"]. *)
Record job_params := {
  p_sampler_type : string;
  p_nsamples : Z;
  p_solution_precision : R;
  p_sum_constraint : R;
  p_relaxation_schedule : Z
}.

(** The keyword arguments of [client.build_job_body]. *)
Record build_args := {
  b_job_type : string;
  b_hamiltonian_file_id : json;
  b_job_params : job_params;
  b_job_tags : list string
}.

(** The keyword arguments of [client.process_job]. *)
Record process_args := {
  pr_job_type : string;
  pr_job_body : json;
  pr_wait : bool
}.

(** The vendor client is opaque: each method is an arbitrary function from
    its arguments to a returned value or a raised exception. *)
Record QciClient := {
  upload_file : ham_file → result json;
  build_job_body : build_args → result json;
  process_job : process_args → result json
}.

(** The calls made on the client, in order. *)
Inductive call :=
| CallUpload (f : ham_file)
| CallBuild (a : build_args)
| CallProcess (a : process_args).

(** A call on the client: it is logged, then returns or raises. *)
Definition invoke {T} (c : call) (r : result T) : eff call T := ([c], r).

(** [C] is passed as its [n = C.shape[0]] numbers, [J] as its rows.  The
    steps are those of the source: stack [H], upload the file, read
    ["file_id"], build the job body, process the job, return the response. *)
Definition sample_hamiltonian (C : list R) (J : list (list R))
    (sum_constraint : R) (schedule : Z) (solution_precision : R)
    (client : QciClient) : eff call json :=
  H ← lift (hstack_col C J);
  let ham_file :=
    {| file_name := "qudit-tutorial-hame"; hamiltonian_data := H |} in
  uploaded ← invoke (CallUpload ham_file) (upload_file client ham_file);
  file_id ← lift (py_getitem uploaded "file_id");
  let job_tags := ["qudit-tutorial"] in
  let args :=
    {| b_job_type := "sample-hamiltonian";
       b_hamiltonian_file_id := file_id;
       b_job_params :=
         {| p_sampler_type := "dirac-3";
            p_nsamples := 1;
            p_solution_precision := solution_precision;
            p_sum_constraint := sum_constraint;
            p_relaxation_schedule := schedule |};
       b_job_tags := job_tags |} in
  job_body ← invoke (CallBuild args) (build_job_body client args);
  let pargs :=
    {| pr_job_type := "sample-hamiltonian";
       pr_job_body := job_body;
       pr_wait := true |} in
  response ← invoke (CallProcess pargs) (process_job client pargs);
  mret response.

(** [x in v and <test on v[x]>]: the right operand is evaluated only when
    the membership test succeeds. *)
Definition in_and (k : string) (v : json) (test : json → result bool)
  : result bool :=
  present ← py_in k v;
  if (present : bool) then item ← py_getitem v k; test item else mret false.

(** The [if] branch reads the single entry of [file_config]; the [else]
    branch collects the details and raises. *)
Definition get_results (response : json) : result json :=
  ok ← in_and "results" response (λ r, mret (negb (is_None r)));
  if (ok : bool) then
    results ← py_getitem response "results";
    results_file_config ← py_getitem results "file_config";
    n ← py_len results_file_config;
    if decide (n = 1%nat) then
      values ← py_values results_file_config;
      list_getitem values 0
    else Raise (AssertionError "Unknown results format")
  else
    failed ← in_and "job_info" response (py_in "job_result");
    details ← (if (failed : bool) then
                 job_info ← py_getitem response "job_info";
                 py_getitem job_info "job_result"
               else mret JNull);
    Raise (RuntimeError details).

(** The first example of the notebook. *)
Definition h_example : list R := [-1; 0; 0]%R.
Definition J_example : list (list R) := [[0; 1; 1]; [1; 0; 1]; [1; 1; 0]]%R.

(** A client without a connection: every call raises. *)
Definition offline_client : QciClient :=
  {| upload_file := λ _, Raise (ClientError "offline");
     build_job_body := λ _, Raise (ClientError "offline");
     process_job := λ _, Raise (ClientError "offline") |}.

(** The job response the notebook displays (the submission and status
    records of [job_info] are left out). *)
Definition results_example : json :=
  JDict (list_to_map
    [("counts", JList [JInt 1]);
     ("energies", JList [JInt (-196)]);
     ("solutions",
      JList [JList [JFloat (10000000116860974 # 100000000000000000000000);
                    JInt 7; JInt 0]])]).

Definition response_example : json :=
  JDict (list_to_map
    [("job_info",
      JDict (list_to_map
        [("job_id", JStr "65dff3571e7c62f822901857");
         ("job_result",
          JDict (list_to_map
            [("file_id", JStr "65dff35efd7ff43e52669ab5");
             ("device_usage_s", JInt 1)]));
         ("details", JDict (list_to_map [("status", JStr "completed")]))]));
     ("results",
      JDict (list_to_map
        [("file_id", JStr "65dff35efd7ff43e52669ab5");
         ("num_parts", JInt 1);
         ("num_bytes", JInt 256);
         ("file_config",
          JDict (list_to_map
            [("normalized_qudit_hamiltonian_optimization_continuous_results",
              results_example)]))]))]).

(** A stand-in for the service: it hands out a file id, accepts any job
    and answers with the displayed response. *)
Definition stub_client : QciClient :=
  {| upload_file := λ _,
       Return (JDict {["file_id" := JStr "65dff356fd7ff43e52669ab3"]});
     build_job_body := λ a,
       Return (JDict {["job_type" := JStr (b_job_type a)]});
     process_job := λ _, Return response_example |}.

(** A response whose results are there but hold no entry. *)
Definition empty_config_response : gmap string json :=
  list_to_map
    [("results", JDict (list_to_map [("file_config", JDict ∅)]))].

(** A failed job: no results, and the failure recorded in [job_info]. *)
Definition failed_response : gmap string json :=
  list_to_map
    [("job_info",
      JDict (list_to_map
        [("job_result", JDict (list_to_map [("error", JStr "timed out")]));
         ("details", JDict (list_to_map [("status", JStr "errored")]))]))].
End Qudit.

(** ** The cells that use [sample_hamiltonian] and [get_results] *)

Module Demos.
(** [h.T@x + x.T@J@x], the value the notebook prints next to the energy of a
    solution; [h] is passed as its numbers.  numpy raises [ValueError] when
    the shapes do not fit. *)
Definition solution_value (h : list R) (J : list (list R)) (x : list R)
  : result R :=
  if decide (length h = length x ∧ rect (length x) (length x) J)
  then Return (dot h x + quad_form J x)%R
  else Raise ValueError.

(** The domain of the qudits: every entry is at least 0 and the entries add
    up to the summation constraint. *)
Definition feasible (total : R) (x : list R) : Prop :=
  Forall (λ v, 0 <= v)%R x ∧ foldr Rplus 0%R x = total.

(** The second example: [H(x) = -5 x1 x3 - 4 x2^2 - 10 x1 - 10 x3]. *)
Definition h_poly : list R := [-10; 0; -10]%R.
Definition J_poly : list (list R) :=
  [[0; 0; -(5 / 2)]; [0; -4; 0]; [-(5 / 2); 0; 0]]%R.

(** The third example keeps [J] of the first one and weighs all linear terms
    alike. *)
Definition h_degenerate : list R := [-1; -1; -1]%R.

Section tally.
Context {Key : Type} `{EqDecision Key}.

(** A Python dictionary with integer values, in insertion order.  Keys are
    compared with [==], which is taken to be an equality (no NaN among the
    entries of a solution). *)
Definition dict_contains (key : Key) (d : list (Key * nat)) : bool :=
  bool_decide (key ∈ d.*1).

(** [d[key]] *)
Fixpoint dict_get (key : Key) (d : list (Key * nat)) : option nat :=
  match d with
  | [] => None
  | (k, c) :: d' => if decide (k = key) then Some c else dict_get key d'
  end.

(** [d[key] = v]: an existing key keeps its place, a new one goes last. *)
Fixpoint dict_set (key : Key) (v : nat) (d : list (Key * nat))
  : list (Key * nat) :=
  match d with
  | [] => [(key, v)]
  | (k, c) :: d' =>
      if decide (k = key) then (k, v) :: d' else (k, c) :: dict_set key v d'
  end.

(** [if solution in super_test: super_test[solution] += 1
     else: super_test[solution] = 1]; [None] stands for the [KeyError] of a
    failed lookup. *)
Definition record (super_test : list (Key * nat)) (solution : Key)
  : option (list (Key * nat)) :=
  if dict_contains solution super_test then
    c ← dict_get solution super_test;
    Some (dict_set solution (c + 1) super_test)
  else Some (dict_set solution 1 super_test).

(** The loop of the degeneracy demonstration, on the solutions of the runs
    in order, starting from [super_test = {}]. *)
Definition tally (solutions : list Key) : option (list (Key * nat)) :=
  foldl (λ acc solution, d ← acc; record d solution) (Some []) solutions.

(** [labels = list(super_test.keys())] *)
Definition labels (super_test : list (Key * nat)) : list Key := super_test.*1.

(** [sizes = [super_test[key] for key in labels]] *)
Definition sizes (super_test : list (Key * nat)) : option (list nat) :=
  mapM (λ key, dict_get key super_test) (labels super_test).

(** How often [key] is among the solutions. *)
Definition occurrences (key : Key) (solutions : list Key) : nat :=
  length (filter (λ k, k = key) solutions).

(** The distinct solutions in the order of their first appearance. *)
Fixpoint first_seen (solutions : list Key) : list Key :=
  match solutions with
  | [] => []
  | k :: rest => k :: filter (λ k', k' ≠ k) (first_seen rest)
  end.
End tally.
End Demos.

(** * Facts *)

(** Equality of concrete real vectors and matrices, entry by entry. *)
Ltac vec_eq := repeat (apply (f_equal2 cons); [lra|]); reflexivity.
Ltac mat_eq := repeat (apply (f_equal2 cons); [vec_eq|]); reflexivity.

(** ** The [result] and [eff] monads *)

Lemma eff_bind_Return {E T U} (k : T → eff E U) (o : list E) (a : T) :
  ((o, Return a) : eff E T) ≫= k = (o ++ (k a).1, (k a).2).
Proof. unfold mbind, eff_mbind, eff_bind. by destruct (k a). Qed.

Lemma eff_bind_Raise {E T U} (k : T → eff E U) (o : list E) (e : exn) :
  ((o, Raise e) : eff E T) ≫= k = (o, Raise e).
Proof. reflexivity. Qed.

(** ** Linear algebra *)

Section linalg_facts.
Local Open Scope R_scope.
Implicit Types (u v w r : list R) (M N : list (list R)).

Lemma dot_nil_r u : dot u [] = 0.
Proof. by destruct u. Qed.

Lemma dot_comm u v : dot u v = dot v u.
Proof.
  revert v. induction u as [|x u IH]; intros [|y v]; simpl; try done.
  rewrite IH. lra.
Qed.

Lemma dot_vscale_l c u v : dot (vscale c u) v = c * dot u v.
Proof.
  revert v. induction u as [|x u IH]; intros [|y v]; simpl; try lra.
  unfold vscale in IH. rewrite IH. lra.
Qed.

Lemma dot_vadd_l u v w :
  length u = length v → dot (vadd u v) w = dot u w + dot v w.
Proof.
  revert v w. induction u as [|x u IH]; intros [|y v] [|z w] Hl;
    simpl in *; try lra; try done.
  unfold vadd in IH. rewrite IH by lia. lra.
Qed.

Lemma dot_zeros n v : dot (replicate n 0) v = 0.
Proof.
  revert v. induction n as [|n IH]; intros [|y v]; simpl; try done.
  rewrite IH. lra.
Qed.

Lemma length_vscale c u : length (vscale c u) = length u.
Proof. apply length_fmap. Qed.

Lemma length_matvec M v : length (matvec M v) = length M.
Proof. apply length_fmap. Qed.

Lemma matvec_no_columns n u : matvec (replicate n []) u = replicate n 0.
Proof.
  unfold matvec. induction n as [|n IH]; [done|].
  rewrite !replicate_S, fmap_cons, IH. by destruct u.
Qed.

Lemma length_transpose_n n M :
  Forall (λ r, length r = n) M → length (transpose_n n M) = n.
Proof.
  induction 1 as [|r M Hr _ IH]; simpl.
  - apply length_replicate.
  - rewrite length_zip_with. lia.
Qed.

Lemma transpose_n_rows n M :
  Forall (λ r, length r = n) M →
  Forall (λ c, length c = length M) (transpose_n n M).
Proof.
  induction 1 as [|r M Hr HM IH]; simpl.
  - apply Forall_replicate. done.
  - apply length_transpose_n in HM. revert IH HM Hr.
    generalize (transpose_n n M) as T. intros T IH. revert r n.
    induction IH as [|c T Hc _ IHT]; intros [|x r] n; simpl; try done.
    intros HT Hr. constructor; [simpl; lia|]. destruct n; [done|].
    apply (IHT r n); lia.
Qed.

Lemma matvec_zip_cons r (T : list (list R)) x u :
  length r = length T →
  matvec (zip_with cons r T) (x :: u) = vadd (vscale x r) (matvec T u).
Proof.
  revert T. induction r as [|a r IH]; intros [|c T] Hl; simpl in *; try done.
  unfold matvec, vadd, vscale in *. rewrite IH by lia. f_equal. lra.
Qed.

(** [(u @ M) @ v = u @ (M @ v)] *)
Lemma dot_transpose_n n M u v :
  Forall (λ r, length r = n) M → length u = length M →
  dot (matvec (transpose_n n M) u) v = dot u (matvec M v).
Proof.
  intros HM. revert u. induction HM as [|r M Hr HM IH]; intros u Hu.
  - destruct u; [|done]. simpl. rewrite matvec_no_columns. apply dot_zeros.
  - destruct u as [|x u]; [done|]. simpl in *.
    rewrite matvec_zip_cons by (by rewrite length_transpose_n).
    rewrite dot_vadd_l.
    + rewrite dot_vscale_l, IH by lia. done.
    + rewrite length_vscale, length_matvec, length_transpose_n; done.
Qed.

Lemma ncols_rect m n M : rect m n M → (m = 0 → n = 0)%nat → ncols M = n.
Proof.
  intros [Hm HM] Hz. destruct HM as [|r M Hr _]; simpl in *.
  - symmetry. by apply Hz.
  - done.
Qed.

Lemma transpose_rect m n M :
  rect m n M → (m = 0 → n = 0)%nat → transpose M = transpose_n n M.
Proof. intros. unfold transpose. by erewrite ncols_rect. Qed.

Lemma rect_transpose_n m n M : rect m n M → rect n m (transpose_n n M).
Proof.
  intros [Hm HM]. split; [by apply length_transpose_n|].
  subst m. by apply transpose_n_rows.
Qed.

(** [(u @ M) @ v = u @ (M @ v)] for numpy's [@]. *)
Lemma dot_vecmat m n M u v :
  rect m n M → (m = 0 → n = 0)%nat → length u = m →
  dot (vecmat u M) v = dot u (matvec M v).
Proof.
  intros HM Hz Hu. unfold vecmat. rewrite (transpose_rect m n) by done.
  destruct HM as [Hm HM]. apply dot_transpose_n; [done|congruence].
Qed.

Lemma matvec_matmul m n k M N v :
  rect m n M → rect n k N → (n = 0 → k = 0)%nat →
  matvec (matmul M N) v = matvec M (matvec N v).
Proof.
  intros [_ HM] HN Hz. unfold matmul, matvec at 1 3. rewrite <- list_fmap_compose.
  apply Forall_fmap_ext. eapply Forall_impl; [exact HM|].
  intros r Hr. simpl. by apply (dot_vecmat n k).
Qed.

Lemma rect_matmul m n k M N :
  rect m n M → rect n k N → (n = 0 → k = 0)%nat → rect m k (matmul M N).
Proof.
  intros [Hm HM] HN Hz. split.
  - unfold matmul. by rewrite length_fmap.
  - unfold matmul. apply Forall_fmap, Forall_true. intros r. simpl.
    unfold vecmat. rewrite length_matvec, (transpose_rect n k) by done.
    apply length_transpose_n, HN.
Qed.
End linalg_facts.

Section quadratic_forms.
Local Open Scope R_scope.
Implicit Types (u v w r : list R) (M N : list (list R)).

(** [s.T @ (M.T @ M) @ s] is the squared norm of [M @ s]. *)
Lemma quad_form_gram m n M s :
  rect m n M → (m = 0 → n = 0)%nat → length s = n →
  quad_form (matmul (transpose M) M) s = norm2 (matvec M s).
Proof.
  intros HM Hz Hs. unfold quad_form, norm2.
  assert (HT : rect n m (transpose M)).
  { rewrite (transpose_rect m n) by done. by apply rect_transpose_n. }
  rewrite (dot_vecmat n n) by (eauto using rect_matmul).
  rewrite (matvec_matmul n m n) by done.
  rewrite dot_comm, (transpose_rect m n) by done.
  destruct HM as [Hm HM]. apply dot_transpose_n; [done|].
  by rewrite length_matvec.
Qed.

Lemma norm2_vsub w v :
  length w = length v →
  norm2 (vsub w v) = dot w w - 2 * dot v w + dot v v.
Proof.
  unfold norm2, vsub. revert v.
  induction w as [|x w IH]; intros [|y v] Hl; simpl in *; try done; [lra|].
  rewrite IH by lia. lra.
Qed.

Lemma norm2_nonneg v : 0 <= norm2 v.
Proof.
  unfold norm2. induction v as [|x v IH]; simpl; [lra|]. nra.
Qed.

Lemma norm2_zero v : norm2 v = 0 ↔ Forall (λ x, x = 0) v.
Proof.
  split.
  - induction v as [|x v IH]; [done|]. intros Hv.
    pose proof (norm2_nonneg v) as Hn. unfold norm2 in *. simpl in Hv.
    assert (x * x = 0 ∧ dot v v = 0) as [Hx Hv'] by nra.
    constructor; [nra|auto].
  - unfold norm2. induction 1 as [|x v Hx _ IH]; simpl; [done|].
    rewrite IH, Hx. lra.
Qed.

Lemma vsub_zero w v :
  length w = length v → Forall (λ x, x = 0) (vsub w v) ↔ w = v.
Proof.
  unfold vsub. revert v.
  induction w as [|x w IH]; intros [|y v] Hl; simpl in *; try done.
  rewrite Forall_cons, IH by lia. split.
  - intros [Hx ->]. f_equal. lra.
  - intros [= -> ->]. split; [lra|done].
Qed.

(** [||w - v||^2 = 0] exactly when [w = v]. *)
Lemma norm2_vsub_zero w v :
  length w = length v → norm2 (vsub w v) = 0 ↔ w = v.
Proof. intros Hl. by rewrite norm2_zero, vsub_zero. Qed.
End quadratic_forms.

Section entries.
Local Open Scope R_scope.
Implicit Types (u v w r : list R) (M N : list (list R)).

Lemma entry_lookup M i j r x :
  M !! i = Some r → r !! j = Some x → entry M i j = x.
Proof.
  intros Hr Hx. unfold entry.
  by rewrite (nth_lookup_Some _ _ _ _ Hr), (nth_lookup_Some _ _ _ _ Hx).
Qed.

Lemma rect_lookup m n M i :
  rect m n M → (i < m)%nat → ∃ r, M !! i = Some r ∧ length r = n.
Proof.
  intros [Hm HM] Hi. destruct (lookup_lt_is_Some_2 M i) as [r Hr]; [lia|].
  exists r. split; [done|]. by eapply (Forall_lookup_1 _ _ _ _ HM).
Qed.

Lemma rect_entry m n M i j :
  rect m n M → (i < m)%nat → (j < n)%nat →
  ∃ r, M !! i = Some r ∧ r !! j = Some (entry M i j).
Proof.
  intros HM Hi Hj. destruct (rect_lookup m n M i) as (r & Hr & Hl); [done..|].
  destruct (lookup_lt_is_Some_2 r j) as [x Hx]; [lia|].
  exists r. split; [done|]. by rewrite (entry_lookup M i j r x).
Qed.

Lemma rect_madd m n M N : rect m n M → rect m n N → rect m n (madd M N).
Proof.
  intros [Hm HM] [Hn HN]. unfold madd. split.
  - rewrite length_zip_with. lia.
  - apply (Forall_zip_with_fst _ (λ r, length r = n)); [done|].
    eapply Forall_impl; [exact HN|]. intros r' Hr' r Hr.
    simpl in *. unfold vadd. rewrite length_zip_with. lia.
Qed.

Lemma entry_madd m n M N i j :
  rect m n M → rect m n N → (i < m)%nat → (j < n)%nat →
  entry (madd M N) i j = entry M i j + entry N i j.
Proof.
  intros HM HN Hi Hj.
  destruct (rect_entry m n M i j) as (r & Hr & Hx); [done..|].
  destruct (rect_entry m n N i j) as (r' & Hr' & Hx'); [done..|].
  apply (entry_lookup _ _ _ (vadd r r')).
  - unfold madd. by rewrite lookup_zip_with, Hr, Hr'.
  - unfold vadd. by rewrite lookup_zip_with, Hx, Hx'.
Qed.

Lemma rect_mscale c m n M : rect m n M → rect m n (mscale c M).
Proof.
  intros [Hm HM]. unfold mscale. split; [by rewrite length_fmap|].
  apply Forall_fmap. eapply Forall_impl; [exact HM|].
  intros r Hr. simpl. by rewrite length_vscale.
Qed.

Lemma entry_mscale c m n M i j :
  rect m n M → (i < m)%nat → (j < n)%nat →
  entry (mscale c M) i j = c * entry M i j.
Proof.
  intros HM Hi Hj.
  destruct (rect_entry m n M i j) as (r & Hr & Hx); [done..|].
  apply (entry_lookup _ _ _ (vscale c r)).
  - unfold mscale. by rewrite list_lookup_fmap, Hr.
  - unfold vscale. by rewrite list_lookup_fmap, Hx.
Qed.

Lemma rect_diag v : rect (length v) (length v) (diag v).
Proof.
  unfold diag. split; [by rewrite length_imap|].
  apply Forall_forall. intros r Hr. apply list_elem_of_lookup in Hr as [i Hi].
  rewrite list_lookup_imap in Hi. destruct (v !! i); simplify_eq/=.
  by rewrite length_insert, length_replicate.
Qed.

Lemma entry_diag v i j :
  (i < length v)%nat → (j < length v)%nat →
  entry (diag v) i j = if decide (i = j) then nth i v 0 else 0.
Proof.
  intros Hi Hj. destruct (lookup_lt_is_Some_2 v i) as [x Hx]; [done|].
  apply (entry_lookup _ _ _ (<[i := x]> (replicate (length v) 0))).
  - unfold diag. by rewrite list_lookup_imap, Hx.
  - case_decide as Hij.
    + subst j. rewrite list_lookup_insert_eq by (by rewrite length_replicate).
      by rewrite (nth_lookup_Some _ _ _ _ Hx).
    + rewrite list_lookup_insert_ne by done. by apply lookup_replicate_2.
Qed.

Lemma entry_matmul m n k M N i j :
  rect m n M → rect n k N → (n = 0 → k = 0)%nat →
  (i < m)%nat → (j < k)%nat →
  entry (matmul M N) i j = dot (nth i M []) (nth j (transpose_n k N) []).
Proof.
  intros HM HN Hz Hi Hj.
  destruct (rect_lookup m n M i) as (r & Hr & _); [done..|].
  pose proof (rect_transpose_n n k N HN) as HT.
  destruct (rect_lookup k n (transpose_n k N) j) as (c & Hc & _); [done..|].
  rewrite (nth_lookup_Some _ _ _ _ Hr), (nth_lookup_Some _ _ _ _ Hc).
  apply (entry_lookup _ _ _ (vecmat r N)).
  - unfold matmul. by rewrite list_lookup_fmap, Hr.
  - unfold vecmat, matvec. rewrite (transpose_rect n k) by done.
    rewrite list_lookup_fmap, Hc. simpl. by rewrite dot_comm.
Qed.

Lemma symmetric_madd n M N :
  rect n n M → rect n n N → symmetric M → symmetric N → symmetric (madd M N).
Proof.
  intros HM HN SM SN i j. destruct (rect_madd n n M N HM HN) as [-> _].
  intros Hi Hj. rewrite !(entry_madd n n) by done.
  destruct HM as [HlM _], HN as [HlN _].
  rewrite SM, SN by lia. done.
Qed.

Lemma symmetric_mscale c n M : rect n n M → symmetric M → symmetric (mscale c M).
Proof.
  intros HM SM i j. destruct (rect_mscale c n n M HM) as [-> _].
  intros Hi Hj. rewrite !(entry_mscale c n n) by done.
  destruct HM as [HlM _]. rewrite SM by lia. done.
Qed.

Lemma symmetric_diag v : symmetric (diag v).
Proof.
  intros i j. destruct (rect_diag v) as [-> _]. intros Hi Hj.
  rewrite !entry_diag by done. repeat case_decide; by subst.
Qed.

(** [M.T @ M] is square and symmetric. *)
Lemma rect_gram m n M :
  rect m n M → (m = 0 → n = 0)%nat → rect n n (matmul (transpose M) M).
Proof.
  intros HM Hz. apply (rect_matmul n m n); [|done..].
  rewrite (transpose_rect m n) by done. by apply rect_transpose_n.
Qed.

Lemma symmetric_gram m n M :
  rect m n M → (m = 0 → n = 0)%nat → symmetric (matmul (transpose M) M).
Proof.
  intros HM Hz i j. destruct (rect_gram m n M HM Hz) as [-> _]. intros Hi Hj.
  pose proof (rect_transpose_n m n M HM) as HT.
  rewrite (transpose_rect m n) by done.
  rewrite !(entry_matmul n m n) by done. apply dot_comm.
Qed.
End entries.

(** ** Sets, selections and multiplicities *)

Section selection_facts.
Import SetPartition.
Context `{Countable K}.
Implicit Types (Ss l : list (gset K)) (x : K).

Lemma foldl_union acc Ss : foldl (λ acc S_i, acc ∪ S_i) acc Ss = acc ∪ ⋃ Ss.
Proof.
  revert acc. induction Ss as [|S_i Ss IH]; intros acc; simpl.
  - by rewrite (right_id_L ∅ (∪)).
  - by rewrite IH, (assoc_L (∪)).
Qed.

(** [X] is the union of all the sets. *)
Lemma X_union_list Ss : X Ss = ⋃ Ss.
Proof. unfold X. by rewrite foldl_union, (left_id_L ∅ (∪)). Qed.

Lemma elem_of_X Ss x : x ∈ X Ss ↔ ∃ i, covers Ss x i.
Proof.
  rewrite X_union_list, elem_of_union_list. unfold covers. split.
  - intros (S_i & Hin & Hx). apply list_elem_of_lookup in Hin as [i Hi]. eauto.
  - intros (i & S_i & Hi & Hx). exists S_i. split; [|done].
    apply list_elem_of_lookup. eauto.
Qed.

Lemma multiplicity_cons x S_i l :
  multiplicity x (S_i :: l) =
  if decide (x ∈ S_i) then S (multiplicity x l) else multiplicity x l.
Proof. unfold multiplicity. rewrite filter_cons. by case_decide. Qed.

Lemma multiplicity_pos x l : (1 ≤ multiplicity x l)%nat ↔ x ∈ ⋃ l.
Proof.
  induction l as [|S_i l IH]; simpl.
  - unfold multiplicity. simpl. set_solver by lia.
  - rewrite multiplicity_cons, elem_of_union, <- IH. case_decide; [|tauto].
    split; [tauto|lia].
Qed.

Lemma multiplicity_zero x l : multiplicity x l = 0%nat ↔ x ∉ ⋃ l.
Proof. rewrite <- multiplicity_pos. lia. Qed.

Lemma length_members l :
  (size (⋃ l) ≤ length (concat (elements <$> l)))%nat.
Proof.
  induction l as [|S_i l IH].
  - done.
  - rewrite fmap_cons, union_list_cons. simpl. rewrite length_app, size_union_alt.
    assert (Hsub : ⋃ l ∖ S_i ⊆ ⋃ l) by apply subseteq_difference_l, reflexivity.
    apply subseteq_size in Hsub.
    change (length (elements S_i)) with (size S_i). lia.
Qed.

(** [len(testX) == len(members)] holds exactly when no element lies in two
    of the sets that were merged. *)
Lemma size_union_list_members l :
  size (⋃ l) = length (concat (elements <$> l)) ↔
  ∀ x, (multiplicity x l ≤ 1)%nat.
Proof.
  induction l as [|S_i l IH].
  - split; [|done]. intros _ x. unfold multiplicity. simpl. lia.
  - rewrite fmap_cons, union_list_cons. simpl. rewrite length_app, size_union_alt.
    assert (Hsub : ⋃ l ∖ S_i ⊆ ⋃ l) by apply subseteq_difference_l, reflexivity.
    pose proof (subseteq_size _ _ Hsub) as Hle.
    pose proof (length_members l) as Hlen.
    change (length (elements S_i)) with (size S_i).
    split.
    + intros Heq.
      assert (Hd : size (⋃ l) ≤ size (⋃ l ∖ S_i)) by lia.
      assert (Hl : size (⋃ l) = length (concat (elements <$> l))) by lia.
      apply (set_subseteq_size_eq _ _ Hsub) in Hd.
      pose proof (proj1 IH Hl) as Hm. intros x. rewrite multiplicity_cons.
      case_decide as Hx; [|apply Hm].
      assert (x ∉ ⋃ l) as Hn.
      { intros Hin. rewrite <- Hd in Hin. apply elem_of_difference in Hin. tauto. }
      apply multiplicity_zero in Hn. lia.
    + intros Hm.
      assert (Hl : ∀ x, (multiplicity x l ≤ 1)%nat).
      { intros x. specialize (Hm x). rewrite multiplicity_cons in Hm.
        case_decide; lia. }
      pose proof (proj2 IH Hl) as Hl'.
      assert (Hdisj : ⋃ l ∖ S_i ≡ ⋃ l).
      { apply set_equiv. intros x. rewrite elem_of_difference.
        split; [tauto|]. intros Hx. split; [done|]. intros HS.
        specialize (Hm x). rewrite multiplicity_cons in Hm.
        apply multiplicity_pos in Hx. case_decide; [lia|done]. }
      rewrite Hdisj. lia.
Qed.
End selection_facts.

Section picked_facts.
Import SetPartition.
Context `{Countable K} {T : Type} `{EqDecision T} (one : T).
Implicit Types (Ss l : list (gset K)) (x : K) (s : list T).

Local Abbreviation hit Ss s x i := (selected one s i ∧ covers Ss x i).

Lemma hit_0 S_0 Ss e s x :
  hit (S_0 :: Ss) (e :: s) x 0%nat ↔ e = one ∧ x ∈ S_0.
Proof.
  unfold selected, covers. simpl. split.
  - intros [[= ->] (S_i & [= <-] & Hx)]. done.
  - intros [-> Hx]. eauto.
Qed.

Lemma hit_S S_0 Ss e s x i :
  hit (S_0 :: Ss) (e :: s) x (S i) ↔ hit Ss s x i.
Proof. reflexivity. Qed.

Lemma hit_nil_l s x i : ¬ hit [] s x i.
Proof. intros [_ (S_i & Hi & _)]. done. Qed.

Lemma hit_nil_r Ss x i : ¬ hit Ss [] x i.
Proof. intros [Hi _]. done. Qed.

Lemma multiplicity_picked_cons x S_0 Ss e s :
  multiplicity x (picked one (S_0 :: Ss) (e :: s)) =
  ((if decide (e = one ∧ x ∈ S_0) then 1 else 0)
   + multiplicity x (picked one Ss s))%nat.
Proof.
  simpl. case_decide as Hs.
  - rewrite multiplicity_cons. repeat case_decide; tauto || lia.
  - case_decide; tauto || lia.
Qed.

Lemma picked_pos Ss s x :
  (1 ≤ multiplicity x (picked one Ss s))%nat ↔ ∃ i, hit Ss s x i.
Proof.
  revert s. induction Ss as [|S_0 Ss IH]; intros [|e s].
  - split; [simpl; unfold multiplicity; simpl; lia|]. by intros [i ?%hit_nil_l].
  - split; [simpl; unfold multiplicity; simpl; lia|]. by intros [i ?%hit_nil_l].
  - split; [simpl; unfold multiplicity; simpl; lia|]. by intros [i ?%hit_nil_r].
  - rewrite multiplicity_picked_cons. case_decide as H0.
    + split; [|lia]. intros _. exists 0%nat. by apply hit_0.
    + rewrite Nat.add_0_l, IH. split.
      * intros [i Hi]. exists (S i). by apply hit_S.
      * intros [[|i] Hi]; [by apply hit_0 in Hi|]. exists i. by apply hit_S in Hi.
Qed.

Lemma picked_le_1 Ss s x :
  (multiplicity x (picked one Ss s) ≤ 1)%nat ↔
  ∀ i k, hit Ss s x i → hit Ss s x k → i = k.
Proof.
  revert s. induction Ss as [|S_0 Ss IH]; intros [|e s].
  - split; [|simpl; unfold multiplicity; simpl; lia]. by intros _ i k ?%hit_nil_l.
  - split; [|simpl; unfold multiplicity; simpl; lia]. by intros _ i k ?%hit_nil_l.
  - split; [|simpl; unfold multiplicity; simpl; lia]. by intros _ i k ?%hit_nil_r.
  - rewrite multiplicity_picked_cons. case_decide as H0.
    + split.
      * intros Hm [|i] [|k] Hi Hk; [done| | |].
        -- apply hit_S in Hk. assert (∃ k, hit Ss s x k) as ?%picked_pos by eauto. lia.
        -- apply hit_S in Hi. assert (∃ k, hit Ss s x k) as ?%picked_pos by eauto. lia.
        -- apply hit_S in Hk. assert (∃ k, hit Ss s x k) as ?%picked_pos by eauto. lia.
      * intros Huniq.
        destruct (decide (1 ≤ multiplicity x (picked one Ss s))%nat) as [Hp|]; [|lia].
        apply picked_pos in Hp as [i Hi].
        assert (S i = 0)%nat; [|done].
        apply Huniq; [by apply hit_S|by apply hit_0].
    + rewrite Nat.add_0_l, IH. split.
      * intros Huniq [|i] [|k] Hi Hk; try (by apply hit_0 in Hi); try (by apply hit_0 in Hk).
        f_equal. apply Huniq; [exact Hi|exact Hk].
      * intros Huniq i k Hi Hk. assert (S i = S k) as [= ->]; [|done].
        apply Huniq; [exact Hi|exact Hk].
Qed.

Lemma picked_subseteq Ss s : ⋃ picked one Ss s ⊆ X Ss.
Proof.
  intros x Hx. apply multiplicity_pos, picked_pos in Hx as (i & _ & Hc).
  apply elem_of_X. eauto.
Qed.

(** Exact cover, counted: every element of [X] lies in exactly one of the
    selected sets. *)
Lemma exact_cover_multiplicity Ss s :
  exact_cover Ss (selected one s) ↔
  ∀ x, x ∈ X Ss → multiplicity x (picked one Ss s) = 1%nat.
Proof.
  unfold exact_cover. split; intros Hc x Hx; specialize (Hc x Hx).
  - destruct Hc as (i & Hi & Huniq).
    assert (1 ≤ multiplicity x (picked one Ss s))%nat by (apply picked_pos; eauto).
    assert (multiplicity x (picked one Ss s) ≤ 1)%nat; [|lia].
    apply picked_le_1. intros i1 i2 H1 H2.
    rewrite (Huniq i1 H1), (Huniq i2 H2). done.
  - assert (∃ i, hit Ss s x i) as [i Hi] by (apply picked_pos; lia).
    exists i. split; [done|]. intros k Hk.
    assert (multiplicity x (picked one Ss s) ≤ 1)%nat as Hle by lia.
    by apply (proj1 (picked_le_1 Ss s x) Hle).
Qed.

(** Pairwise disjointness, counted: no element lies in two selected sets. *)
Lemma pairwise_disjoint_multiplicity Ss s :
  pairwise_disjoint Ss (selected one s) ↔
  ∀ x, (multiplicity x (picked one Ss s) ≤ 1)%nat.
Proof.
  unfold pairwise_disjoint. split.
  - intros Hd x. apply picked_le_1.
    intros i k [Hsi (S_i & Hi & Hxi)] [Hsk (S_k & Hk & Hxk)].
    destruct (decide (i = k)) as [|Hne]; [done|].
    specialize (Hd i k S_i S_k Hne Hsi Hsk Hi Hk).
    exfalso. by apply (Hd x).
  - intros Hm i k S_i S_k Hne Hsi Hsk Hi Hk x Hxi Hxk.
    apply Hne. apply (proj1 (picked_le_1 Ss s x) (Hm x)); unfold covers; eauto.
Qed.
End picked_facts.

(** ** The result interpreter, step by step *)

Lemma eff_bind_lift_Return {E T U} (a : T) (k : T → eff E U) :
  lift (Return a) ≫= k = k a.
Proof. unfold lift, mbind, eff_mbind, eff_bind. by destruct (k a). Qed.

Lemma eff_bind_mret {E T U} (a : T) (k : T → eff E U) : mret a ≫= k = k a.
Proof. apply eff_bind_lift_Return. Qed.

Lemma eff_bind_emit {E U} (e : E) (k : unit → eff E U) :
  emit e ≫= k = (e :: (k tt).1, (k tt).2).
Proof. unfold emit, mbind, eff_mbind, eff_bind. by destruct (k tt). Qed.

Lemma coverage_full (a c : nat) :
  c ≠ 0%nat → Qred (Z.of_nat (100 * a) # Pos.of_nat c) = 100%Q ↔ a = c.
Proof.
  intros Hc.
  assert (Hpos : Z.pos (Pos.of_nat c) = Z.of_nat c).
  { rewrite <- positive_nat_Z, Nat2Pos.id; done. }
  split.
  - intros Hq. pose proof (Qred_correct (Z.of_nat (100 * a) # Pos.of_nat c)) as He.
    rewrite Hq in He. unfold Qeq in He. simpl in He. rewrite Hpos in He. lia.
  - intros ->. change 100%Q with (Qred 100). apply Qred_complete.
    unfold Qeq. simpl. rewrite Hpos. lia.
Qed.

Lemma coverage_none (c : nat) : Qred (Z.of_nat (100 * 0) # Pos.of_nat c) = 0%Q.
Proof. change 0%Q with (Qred 0). by apply Qred_complete. Qed.

Section interpreter_facts.
Import SetPartition.
Context `{Countable K}.
Implicit Types (Ss : list (gset K)) (sample : list Z).

Lemma select_loop_spec i Ss sample st :
  i + length Ss ≤ length sample →
  ∃ o, select_loop i Ss sample st =
         (o, Return (st.1 ∪ ⋃ picked 1%Z Ss (drop i sample),
                     st.2 ++ concat (elements <$> picked 1%Z Ss (drop i sample))))
       ∧ Forall (λ ln, ∃ k, ln = PSet k) o.
Proof.
  revert i st. induction Ss as [|S_i Ss IH]; intros i [testX members] Hlen.
  - exists []. simpl. split; [|done]. unfold mret, eff_mret, eff_ret.
    by rewrite (right_id_L ∅ (∪)), (right_id_L [] (++)).
  - simpl in Hlen.
    destruct (lookup_lt_is_Some_2 sample i) as [s_i Hs]; [lia|].
    rewrite (drop_S _ _ _ Hs). simpl. unfold list_getitem. rewrite Hs. simpl.
    case_decide as H1.
    + destruct (IH (S i) (testX ∪ S_i, members ++ elements S_i)) as (o & Ho & HF);
        [lia|]. simpl in *. rewrite Ho.
      exists (PSet i :: o). split; [|constructor; eauto].
      by rewrite (assoc_L (∪)), (assoc_L (++)).
    + destruct (IH (S i) (testX, members)) as (o & Ho & HF); [lia|].
      simpl in *. rewrite Ho. eauto.
Qed.

(** What one pass of the loop body prints for a well-formed response: the
    lines up to the selection, then the coverage and the partition flag. *)
Lemma check_sample_log Ss results objective j sample :
  X Ss ≠ ∅ → well_formed Ss results objective →
  samples results !! j = Some sample →
  ∃ pre,
    check_sample Ss results objective j sample =
      (pre ++
       [PCoverage (Qred (Z.of_nat (100 * size (⋃ picked 1%Z Ss sample))
                         # Pos.of_nat (size (X Ss))));
        PPartitionFound
          (bool_decide (size (⋃ picked 1%Z Ss sample) =
                        length (concat (elements <$> picked 1%Z Ss sample))))],
       Return tt)
    ∧ Forall (λ ln, (∀ q, ln ≠ PCoverage q) ∧ (∀ f, ln ≠ PPartitionFound f)) pre.
Proof.
  intros HX (He & Hc & Hs & Hobj) Hj.
  pose proof (lookup_lt_Some _ _ _ Hj) as Hlt.
  destruct (lookup_lt_is_Some_2 (energies results) j) as [e Hej]; [lia|].
  destruct (lookup_lt_is_Some_2 (counts results) j) as [c Hcj]; [lia|].
  pose proof (Forall_lookup_1 _ _ _ _ Hs Hj) as [Hlen Hbin]. simpl in Hlen.
  destruct (select_loop_spec 0 Ss sample (∅, [])) as (o & Ho & HF); [simpl; lia|].
  rewrite drop_0 in Ho. simpl in Ho.
  rewrite (left_id_L ∅ (∪)) in Ho.
  assert (Hsize : size (X Ss) ≠ 0%nat).
  { intros Hz. apply size_empty_inv in Hz. by apply leibniz_equiv in Hz. }
  unfold check_sample, list_getitem, coverage. rewrite Hej, Hcj.
  destruct objective as [obj|].
  - unfold objective_value. rewrite decide_True by (by rewrite length_fmap, Hlen).
    simpl. rewrite Ho. simpl. rewrite decide_False by done. simpl.
    eexists (_ :: _ :: _ :: _ :: o ++ [_]). split.
    + rewrite <- !app_comm_cons, <- app_assoc. reflexivity.
    + repeat (constructor; [done|]). apply Forall_app. split.
      * eapply Forall_impl; [exact HF|]. by intros ln [k ->].
      * by constructor.
  - simpl. rewrite Ho. simpl. rewrite decide_False by done. simpl.
    eexists (_ :: _ :: _ :: o ++ [_]). split.
    + rewrite <- !app_comm_cons, <- app_assoc. reflexivity.
    + repeat (constructor; [done|]). apply Forall_app. split.
      * eapply Forall_impl; [exact HF|]. by intros ln [k ->].
      * by constructor.
Qed.

(** [check_result] prints the blocks of the samples one after the other. *)
Lemma check_loop_blocks Ss results objective j todo :
  X Ss ≠ ∅ → well_formed Ss results objective →
  (∀ k s, todo !! k = Some s → samples results !! (j + k) = Some s) →
  check_loop Ss results objective j todo =
    (concat (imap (λ k s, (check_sample Ss results objective (j + k) s).1) todo),
     Return tt).
Proof.
  intros HX Hwf. revert j. induction todo as [|sample todo IH]; intros j Hall.
  - done.
  - destruct (check_sample_log Ss results objective j sample HX Hwf)
      as (pre & Hlog & _).
    { rewrite <- (Nat.add_0_r j). by apply Hall. }
    simpl. rewrite Nat.add_0_r, Hlog. simpl.
    rewrite (IH (S j)).
    + f_equal. f_equal. f_equal. apply imap_ext. intros k s _. simpl.
      by rewrite Nat.add_succ_r.
    + intros k s Hk. rewrite Nat.add_succ_l, <- Nat.add_succ_r. by apply Hall.
Qed.

Lemma check_result_blocks Ss results objective :
  X Ss ≠ ∅ → well_formed Ss results objective →
  check_result Ss results objective =
    (concat (imap (λ j s, (check_sample Ss results objective j s).1)
               (samples results)),
     Return tt).
Proof.
  intros HX Hwf. unfold check_result.
  by rewrite (check_loop_blocks Ss results objective 0 _ HX Hwf).
Qed.

Lemma exact_cover_sizes Ss sample :
  exact_cover Ss (selected 1%Z sample) ↔
  size (⋃ picked 1%Z Ss sample) = size (X Ss) ∧
  size (⋃ picked 1%Z Ss sample) =
    length (concat (elements <$> picked 1%Z Ss sample)).
Proof.
  rewrite exact_cover_multiplicity, size_union_list_members.
  pose proof (picked_subseteq 1%Z Ss sample) as Hsub. split.
  - intros Hone. split.
    + f_equal. apply set_eq. intros x. split; [apply Hsub|].
      intros Hx. apply multiplicity_pos. rewrite (Hone x Hx). done.
    + intros x. destruct (decide (x ∈ X Ss)) as [Hx|Hx].
      * by rewrite (Hone x Hx).
      * assert (x ∉ ⋃ picked 1%Z Ss sample) as Hn by (intros ?; by apply Hx, Hsub).
        apply multiplicity_zero in Hn. lia.
  - intros [Hsize Hle] x Hx.
    assert (Heq : ⋃ picked 1%Z Ss sample = X Ss).
    { apply set_subseteq_size_eq; [done|lia]. }
    rewrite <- Heq in Hx. apply multiplicity_pos in Hx. specialize (Hle x). lia.
Qed.

Lemma elem_of_block pre (q : QArith_base.Q) (f : bool) :
  Forall (λ ln, (∀ q, ln ≠ PCoverage q) ∧ (∀ f, ln ≠ PPartitionFound f)) pre →
  (PCoverage 100 ∈ pre ++ [PCoverage q; PPartitionFound f] ↔ q = 100%Q) ∧
  (PCoverage 0 ∈ pre ++ [PCoverage q; PPartitionFound f] ↔ q = 0%Q) ∧
  (PPartitionFound true ∈ pre ++ [PCoverage q; PPartitionFound f] ↔ f = true).
Proof.
  intros Hpre. rewrite Forall_forall in Hpre.
  repeat split; rewrite ?elem_of_app, ?elem_of_cons, ?elem_of_nil.
  - intros [Hin|[[= <-]|[?|[]]]]; [|done..].
    apply Hpre in Hin as [Hc _]. by destruct (Hc 100%Q).
  - intros ->. auto.
  - intros [Hin|[[= <-]|[?|[]]]]; [|done..].
    apply Hpre in Hin as [Hc _]. by destruct (Hc 0%Q).
  - intros ->. auto.
  - intros [Hin|[?|[[= <-]|[]]]]; [|done..].
    apply Hpre in Hin as [_ Hc]. by destruct (Hc true).
  - intros ->. auto.
Qed.

(** C1.  For a well-formed response over a collection with a non-empty
    universe, [check_result] prints the block of each sample in turn, and
    the block of a sample shows "Set coverage 100.0%" together with
    "Partition found: True" exactly when the selected sets are a set
    partitioning of [X]: every element of [X] lies in exactly one selected
    set. *)
Theorem check_result_exact_cover Ss results objective :
  X Ss ≠ ∅ → well_formed Ss results objective →
  check_result Ss results objective =
    (concat (imap (λ j s, (check_sample Ss results objective j s).1)
               (samples results)),
     Return tt) ∧
  ∀ j sample, samples results !! j = Some sample →
    (PCoverage 100 ∈ (check_sample Ss results objective j sample).1 ∧
     PPartitionFound true ∈ (check_sample Ss results objective j sample).1)
    ↔ exact_cover Ss (selected 1%Z sample).
Proof.
  intros HX Hwf. split; [by apply check_result_blocks|].
  intros j sample Hj.
  destruct (check_sample_log Ss results objective j sample HX Hwf Hj)
    as (pre & -> & Hpre). cbn [fst].
  edestruct (elem_of_block pre) as (-> & _ & ->); [exact Hpre|].
  rewrite exact_cover_sizes, bool_decide_eq_true.
  rewrite coverage_full; [done|].
  intros Hz. apply size_empty_inv in Hz. by apply leibniz_equiv in Hz.
Qed.
End interpreter_facts.

Section partition_flag.
Import SetPartition.
Context `{Countable K}.
Implicit Types (Ss : list (gset K)) (sample : list Z).

Lemma picked_zeros Ss sample :
  Forall (λ v, v = 0%Z) sample → picked 1%Z Ss sample = [].
Proof.
  intros Hz. revert Ss. induction Hz as [|v sample -> _ IH]; intros [|S_i Ss];
    simpl; done.
Qed.

(** C9.  For a well-formed response over a collection with a non-empty
    universe, [check_result] prints the block of each sample in turn, and
    the block of a sample shows "Partition found: True" exactly when the
    selected sets are pairwise disjoint, whatever they cover.  The sample
    that selects nothing gets "Set coverage 0.0%" together with
    "Partition found: True" although it is no set partitioning. *)
Theorem check_result_partition_flag Ss results objective :
  X Ss ≠ ∅ → well_formed Ss results objective →
  check_result Ss results objective =
    (concat (imap (λ j s, (check_sample Ss results objective j s).1)
               (samples results)),
     Return tt) ∧
  ∀ j sample, samples results !! j = Some sample →
    (PPartitionFound true ∈ (check_sample Ss results objective j sample).1
     ↔ pairwise_disjoint Ss (selected 1%Z sample)) ∧
    (Forall (λ v, v = 0%Z) sample →
     PCoverage 0 ∈ (check_sample Ss results objective j sample).1 ∧
     PPartitionFound true ∈ (check_sample Ss results objective j sample).1 ∧
     ¬ exact_cover Ss (selected 1%Z sample)).
Proof.
  intros HX Hwf. split; [by apply check_result_blocks|].
  intros j sample Hj.
  destruct (check_sample_log Ss results objective j sample HX Hwf Hj)
    as (pre & -> & Hpre). cbn [fst].
  edestruct (elem_of_block pre) as (_ & Hzero & Hflag); [exact Hpre|].
  rewrite Hzero, Hflag, bool_decide_eq_true. clear Hzero Hflag. split.
  - by rewrite size_union_list_members, pairwise_disjoint_multiplicity.
  - intros Hz. rewrite (picked_zeros Ss sample Hz).
    rewrite fmap_nil, union_list_nil, size_empty.
    split; [apply coverage_none|]. split; [done|].
    intros Hcover. apply set_choose_L in HX as [x Hx].
    destruct (Hcover x Hx) as (i & [Hsel _] & _). unfold selected in Hsel.
    by pose proof (Forall_lookup_1 _ _ _ _ Hz Hsel).
Qed.
End partition_flag.

Section interpreter_examples.
Import SetPartition.

Example X_data_nonempty : X S_data ≠ ∅.
Proof. apply (bool_decide_unpack _). by vm_compute. Qed.

Lemma check_result_exact_cover_witness :
  check_result S_data response_data None =
    (concat (imap (λ j s, (check_sample S_data response_data None j s).1)
               (samples response_data)),
     Return tt) ∧
  ∀ j sample, samples response_data !! j = Some sample →
    (PCoverage 100 ∈ (check_sample S_data response_data None j sample).1 ∧
     PPartitionFound true ∈ (check_sample S_data response_data None j sample).1)
    ↔ exact_cover S_data (selected 1%Z sample).
Proof.
  apply (check_result_exact_cover S_data response_data None).
  - apply (bool_decide_unpack _). by vm_compute.
  - unfold well_formed, binary. simpl.
    repeat first [split | apply Forall_nil | apply Forall_cons
                 | by left | by right | done].
Defined.

Lemma check_result_partition_flag_witness :
  check_result S_data empty_selection None =
    (concat (imap (λ j s, (check_sample S_data empty_selection None j s).1)
               (samples empty_selection)),
     Return tt) ∧
  PCoverage 0 ∈
    (check_sample S_data empty_selection None 0 (replicate 9 0%Z)).1 ∧
  PPartitionFound true ∈
    (check_sample S_data empty_selection None 0 (replicate 9 0%Z)).1.
Proof.
  assert (HX : X S_data ≠ ∅) by (apply (bool_decide_unpack _); by vm_compute).
  assert (Hwf : well_formed S_data empty_selection None).
  { unfold well_formed, binary. simpl.
    repeat first [split | apply Forall_nil | apply Forall_cons
                 | by left | by right | done]. }
  destruct (check_result_partition_flag S_data empty_selection None HX Hwf)
    as [Hrun Hblock].
  destruct (Hblock 0 (replicate 9 0%Z) eq_refl) as [_ Hzero].
  destruct Hzero as (Hc & Hp & _); [by apply Forall_replicate|].
  by split.
Defined.
End interpreter_examples.

Section printed_blocks.
Import SetPartition.

(** The first block of the notebook's output. *)
Example check_sample_data_0 :
  check_sample S_data response_data None 0 [0; 0; 1; 0; 0; 0; 1; 1; 0]%Z =
    ([PQuboValue (-6); PTimesFound 2; PSelectedSets; PSet 2; PSet 6; PSet 7;
      PNewline; PCoverage 100; PPartitionFound true], Return tt).
Proof. vm_compute. reflexivity. Qed.
End printed_blocks.

(** ** The encoder *)

Section encoder_facts.
Import SetPartition.
Context `{Countable K}.
Implicit Types (Ss : list (gset K)) (x : K).
Local Open Scope R_scope.

Lemma rect_A Ss : rect (size (X Ss)) (length Ss) (A Ss).
Proof.
  unfold A. split.
  - by rewrite length_fmap.
  - apply Forall_fmap, Forall_true. intros x. simpl. by rewrite length_fmap.
Qed.

Lemma A_lookup Ss k x :
  elements (X Ss) !! k = Some x →
  A Ss !! k = Some ((λ S_i, if decide (x ∈ S_i) then 1 else 0) <$> Ss).
Proof. intros Hk. unfold A. by rewrite list_lookup_fmap, Hk. Qed.

Lemma A_empty Ss : A Ss = [] ↔ X Ss = ∅.
Proof.
  unfold A. split.
  - intros HA%fmap_nil_inv. by apply elements_empty_inv, leibniz_equiv in HA.
  - intros ->. by rewrite elements_empty.
Qed.

Lemma size_X_pos Ss : X Ss ≠ ∅ → size (X Ss) ≠ 0%nat.
Proof. intros HX Hz. apply size_empty_inv in Hz. by apply leibniz_equiv in Hz. Qed.

(** The penalty cell runs exactly when the universe is not empty. *)
Lemma penalty_Return Ss Jm hv c :
  penalty Ss = Return (Jm, hv, c) ↔
  X Ss ≠ ∅ ∧ Jm = J Ss ∧ hv = h Ss ∧ c = offset Ss.
Proof.
  unfold penalty. case_decide as HA.
  - split; [done|]. intros [HX _]. by apply A_empty in HA.
  - rewrite A_empty in HA. split.
    + by intros [= <- <- <-].
    + by intros (_ & -> & -> & ->).
Qed.

(** C7.  [X] is the union of the sets; [A] has one row for each element of
    [X] (the rows follow the enumeration [elements X], which lists every
    element of [X] once) and one column for each set, with entry [1] where
    the element is a member of the set and [0] elsewhere; [b] is the
    all-ones vector with one entry per element of [X]. *)
Theorem encoder_constraints Ss :
  X Ss = ⋃ Ss ∧
  NoDup (elements (X Ss)) ∧
  (∀ x, x ∈ elements (X Ss) ↔ x ∈ X Ss) ∧
  length (A Ss) = size (X Ss) ∧
  (∀ k x, elements (X Ss) !! k = Some x →
     ∃ row, A Ss !! k = Some row ∧ length row = length Ss ∧
       ∀ i S_i, Ss !! i = Some S_i →
         row !! i = Some (if decide (x ∈ S_i) then 1 else 0)) ∧
  b Ss = replicate (size (X Ss)) 1.
Proof.
  split; [apply X_union_list|]. split; [apply NoDup_elements|].
  split; [intros x; apply elem_of_elements|].
  destruct (rect_A Ss) as [HlA _]. split; [done|]. split.
  - intros k x Hk. eexists. split; [by apply A_lookup|].
    split; [by rewrite length_fmap|].
    intros i S_i Hi. by rewrite list_lookup_fmap, Hi.
  - unfold b. by rewrite HlA.
Qed.
End encoder_facts.

Section penalty_facts.
Import SetPartition.
Context `{Countable K}.
Implicit Types (Ss : list (gset K)) (x : K) (s : list R).
Local Open Scope R_scope.

Lemma length_b Ss : length (b Ss) = size (X Ss).
Proof. unfold b. rewrite length_replicate. apply rect_A. Qed.

(** The three terms of the penalty, in terms of [w = A @ s]. *)
Lemma quad_form_J Ss s :
  X Ss ≠ ∅ → length s = length Ss →
  quad_form (J Ss) s = dot (matvec (A Ss) s) (matvec (A Ss) s).
Proof.
  intros HX Hs. apply (quad_form_gram (size (X Ss)) (length Ss)); [|intros Hz|done].
  - apply rect_A.
  - by apply size_X_pos in HX.
Qed.

Lemma dot_h Ss s :
  X Ss ≠ ∅ → dot (h Ss) s = -2 * dot (b Ss) (matvec (A Ss) s).
Proof.
  intros HX. unfold h.
  rewrite (dot_vecmat (size (X Ss)) (length Ss)).
  - apply dot_vscale_l.
  - apply rect_A.
  - intros Hz. by apply size_X_pos in HX.
  - by rewrite length_vscale, length_b.
Qed.

(** Row [x] of [A] times a binary [s] counts the selected sets that
    contain [x]. *)
Lemma row_dot Ss s x :
  binary_R s →
  dot ((λ S_i, if decide (x ∈ S_i) then 1 else 0) <$> Ss) s =
  INR (multiplicity x (picked 1 Ss s)).
Proof.
  intros Hs. revert Ss. induction Hs as [|v s Hv _ IH]; intros [|S_i Ss];
    try done.
  rewrite multiplicity_picked_cons, plus_INR, <- IH, fmap_cons. simpl.
  destruct Hv as [-> | ->]; repeat case_decide; simpl; try lra;
    exfalso; intuition lra.
Qed.

Lemma matvec_A Ss s :
  binary_R s →
  matvec (A Ss) s = b Ss ↔ exact_cover Ss (selected 1 s).
Proof.
  intros Hs. rewrite exact_cover_multiplicity.
  unfold b, A, matvec. rewrite length_fmap, <- list_fmap_compose.
  rewrite <- (const_fmap (λ _ : K, 1) (elements (X Ss)) 1) by done.
  rewrite <- Forall_fmap_ext, Forall_forall.
  split; intros Hall x Hx.
  - apply elem_of_elements, Hall in Hx. simpl in Hx.
    rewrite row_dot in Hx by done. by apply (INR_eq _ 1).
  - apply elem_of_elements, Hall in Hx. simpl. rewrite row_dot by done.
    by rewrite Hx.
Qed.

(** C2.  With [J], [h] and [offset] as the penalty cell builds them, the
    penalty [s^T J s + h.s + offset] of a real vector [s] with one entry per
    set is [||A s - b||^2]; it vanishes exactly when [A s = b]; and for a
    binary [s] it vanishes exactly when [s] selects an exact cover of [X]. *)
Theorem penalty_identity Ss Jm hv c s :
  penalty Ss = Return (Jm, hv, c) → length s = length Ss →
  quad_form Jm s + dot hv s + c = norm2 (vsub (matvec (A Ss) s) (b Ss)) ∧
  (quad_form Jm s + dot hv s + c = 0 ↔ matvec (A Ss) s = b Ss) ∧
  (binary_R s →
   (quad_form Jm s + dot hv s + c = 0 ↔ exact_cover Ss (selected 1 s))).
Proof.
  intros (HX & -> & -> & ->)%penalty_Return Hs.
  assert (Hlen : length (matvec (A Ss) s) = length (b Ss)).
  { rewrite length_matvec, length_b. apply rect_A. }
  assert (Hid : quad_form (J Ss) s + dot (h Ss) s + offset Ss =
                norm2 (vsub (matvec (A Ss) s) (b Ss))).
  { rewrite norm2_vsub, quad_form_J, dot_h by done. unfold offset. lra. }
  split; [done|]. rewrite Hid, norm2_vsub_zero by done. split; [done|].
  intros Hbin. by apply matvec_A.
Qed.
End penalty_facts.

Section encoder_examples.
Import SetPartition.
Local Open Scope R_scope.

(** The values the notebook displays for its data. *)
Example J_data :
  J S_data = [[3; 0; 1; 1; 1; 1; 1; 1; 2];
              [0; 3; 1; 1; 1; 0; 0; 2; 0];
              [1; 1; 2; 0; 0; 1; 0; 0; 0];
              [1; 1; 0; 2; 0; 0; 1; 1; 1];
              [1; 1; 0; 0; 2; 0; 0; 2; 1];
              [1; 0; 1; 0; 0; 1; 0; 0; 0];
              [1; 0; 0; 1; 0; 0; 1; 0; 1];
              [1; 2; 0; 1; 2; 0; 0; 3; 1];
              [2; 0; 0; 1; 1; 0; 1; 1; 2]].
Proof. vm_compute. mat_eq. Qed.

Example h_data : h S_data = [-6; -6; -4; -4; -4; -2; -2; -6; -4].
Proof. vm_compute. vec_eq. Qed.

Example offset_data : offset S_data = 6.
Proof. vm_compute. lra. Qed.

Example P_data :
  P S_data = [[-3; 0; 1; 1; 1; 1; 1; 1; 2];
              [0; -3; 1; 1; 1; 0; 0; 2; 0];
              [1; 1; -2; 0; 0; 1; 0; 0; 0];
              [1; 1; 0; -2; 0; 0; 1; 1; 1];
              [1; 1; 0; 0; -2; 0; 0; 2; 1];
              [1; 0; 1; 0; 0; -1; 0; 0; 0];
              [1; 0; 0; 1; 0; 0; -1; 0; 1];
              [1; 2; 0; 1; 2; 0; 0; -3; 1];
              [2; 0; 0; 1; 1; 0; 1; 1; -2]].
Proof. vm_compute. mat_eq. Qed.

Example penalty_data :
  penalty S_data = Return (J S_data, h S_data, offset S_data).
Proof.
  unfold penalty. rewrite decide_False; [done|].
  intros HA%(f_equal length). by vm_compute in HA.
Qed.

Lemma penalty_identity_witness :
  let s := [1; 1; 0; 0; 0; 0; 0; 0; 0] in
  quad_form (J S_data) s + dot (h S_data) s + offset S_data =
    norm2 (vsub (matvec (A S_data) s) (b S_data)) ∧
  (quad_form (J S_data) s + dot (h S_data) s + offset S_data = 0 ↔
   matvec (A S_data) s = b S_data) ∧
  (binary_R s →
   (quad_form (J S_data) s + dot (h S_data) s + offset S_data = 0 ↔
    exact_cover S_data (selected 1 s))).
Proof.
  apply (penalty_identity S_data).
  - unfold penalty. rewrite decide_False; [done|].
    intros HA%(f_equal length). by vm_compute in HA.
  - reflexivity.
Defined.
End encoder_examples.

(** ** Diagonal matrices and the QUBO forms *)

Section diagonal_facts.
Local Open Scope R_scope.
Implicit Types (u v s r : list R) (M N : list (list R)).

Lemma matvec_madd n M N s :
  length M = length N →
  Forall (λ r, length r = n) M → Forall (λ r, length r = n) N →
  matvec (madd M N) s = vadd (matvec M s) (matvec N s).
Proof.
  intros Hl HM. revert N Hl.
  induction HM as [|r M Hr _ IH]; intros [|r' N] Hl HN; try done.
  apply Forall_cons in HN as [Hr' HN]. unfold matvec, madd, vadd in *. simpl.
  rewrite dot_vadd_l by congruence. f_equal. apply IH; [by simplify_eq/=|done].
Qed.

Lemma dot_unit_row i x n s :
  (i < n)%nat → dot (<[i := x]> (replicate n 0)) s = x * nth i s 0.
Proof.
  revert i s. induction n as [|n IH]; intros i s Hi; [lia|].
  destruct s as [|y s]; [rewrite dot_nil_r; destruct i; simpl; lra|].
  destruct i as [|i]; simpl.
  - rewrite dot_zeros. lra.
  - rewrite IH by lia. ring.
Qed.

Lemma matvec_diag v s :
  length s = length v → matvec (diag v) s = zip_with Rmult v s.
Proof.
  intros Hl. unfold matvec, diag. apply list_eq. intros i.
  rewrite list_lookup_fmap, list_lookup_imap, lookup_zip_with.
  destruct (v !! i) as [x|] eqn:Hx; [|done]. simpl.
  pose proof (lookup_lt_Some _ _ _ Hx) as Hi.
  destruct (lookup_lt_is_Some_2 s i) as [y Hy]; [lia|].
  rewrite Hy. simpl. rewrite dot_unit_row by done.
  by rewrite (nth_lookup_Some _ _ _ _ Hy).
Qed.

Lemma quad_form_dot n M s :
  rect n n M → length s = n → quad_form M s = dot s (matvec M s).
Proof. intros HM Hs. by apply (dot_vecmat n n). Qed.

Lemma quad_form_madd n M N s :
  rect n n M → rect n n N → length s = n →
  quad_form (madd M N) s = quad_form M s + quad_form N s.
Proof.
  intros HM HN Hs.
  rewrite !(quad_form_dot n) by eauto using rect_madd.
  destruct HM as [HlM HM], HN as [HlN HN].
  rewrite (matvec_madd n) by (done || congruence).
  rewrite (dot_comm s), dot_vadd_l, !(dot_comm s); [done|].
  rewrite !length_matvec. congruence.
Qed.

Lemma quad_form_mscale c n M s :
  rect n n M → length s = n →
  quad_form (mscale c M) s = c * quad_form M s.
Proof.
  intros HM Hs. rewrite !(quad_form_dot n) by eauto using rect_mscale.
  assert (Hsc : matvec (mscale c M) s = vscale c (matvec M s)).
  { unfold matvec, mscale, vscale at 2. rewrite <- !list_fmap_compose.
    apply list_fmap_ext. intros i r _. simpl. apply dot_vscale_l. }
  by rewrite Hsc, (dot_comm s), dot_vscale_l, (dot_comm s).
Qed.

(** On a binary vector the diagonal form is the linear form. *)
Lemma quad_form_diag_binary v s :
  length s = length v → Forall (λ x, x = 0 ∨ x = 1) s →
  quad_form (diag v) s = dot v s.
Proof.
  intros Hl Hs. rewrite (quad_form_dot (length v)), matvec_diag;
    [|done|apply rect_diag|done].
  revert v Hl. induction Hs as [|y s Hy _ IH]; intros [|x v] Hl; try done.
  simpl in *. rewrite IH by lia. destruct Hy as [-> | ->]; lra.
Qed.
End diagonal_facts.

Section qubo_facts.
Import SetPartition.
Context `{Countable K}.
Implicit Types (Ss : list (gset K)) (s t Ws : list R) (sample : list Z).
Local Open Scope R_scope.

Lemma rect_J Ss : X Ss ≠ ∅ → rect (length Ss) (length Ss) (J Ss).
Proof.
  intros HX. apply (rect_gram (size (X Ss))); [apply rect_A|].
  intros Hz. by apply size_X_pos in HX.
Qed.

Lemma symmetric_J Ss : X Ss ≠ ∅ → symmetric (J Ss).
Proof.
  intros HX. apply (symmetric_gram (size (X Ss)) (length Ss)); [apply rect_A|].
  intros Hz. by apply size_X_pos in HX.
Qed.

Lemma length_h Ss : X Ss ≠ ∅ → length (h Ss) = length Ss.
Proof.
  intros HX. unfold h, vecmat. rewrite length_matvec.
  rewrite (transpose_rect (size (X Ss)) (length Ss)).
  - apply length_transpose_n, rect_A.
  - apply rect_A.
  - intros Hz. by apply size_X_pos in HX.
Qed.

Lemma rect_P Ss : X Ss ≠ ∅ → rect (length Ss) (length Ss) (P Ss).
Proof.
  intros HX. apply rect_madd; [by apply rect_J|].
  rewrite <- (length_h Ss HX). apply rect_diag.
Qed.

Lemma symmetric_P Ss : X Ss ≠ ∅ → symmetric (P Ss).
Proof.
  intros HX. apply (symmetric_madd (length Ss)).
  - by apply rect_J.
  - rewrite <- (length_h Ss HX). apply rect_diag.
  - by apply symmetric_J.
  - apply symmetric_diag.
Qed.

Lemma quad_form_P Ss s :
  X Ss ≠ ∅ → length s = length Ss → binary_R s →
  quad_form (P Ss) s = quad_form (J Ss) s + dot (h Ss) s.
Proof.
  intros HX Hs Hbin. unfold P.
  rewrite (quad_form_madd (length Ss)), quad_form_diag_binary; try done.
  - by rewrite length_h.
  - by apply rect_J.
  - rewrite <- (length_h Ss HX). apply rect_diag.
Qed.

(** C5.  With [P = J + diag(h)] built from the penalty cell's [J] and [h],
    every binary vector [s] with one entry per set has
    [s^T P s = s^T J s + h.s]; hence a binary vector minimises the QUBO [P]
    over the binary vectors exactly when it minimises the
    quadratic-plus-linear form. *)
Theorem diagonal_folding Ss Jm hv c :
  penalty Ss = Return (Jm, hv, c) →
  (∀ s, length s = length Ss → binary_R s →
     quad_form (P Ss) s = quad_form Jm s + dot hv s) ∧
  (∀ s, length s = length Ss → binary_R s →
     (∀ t, length t = length Ss → binary_R t →
        quad_form (P Ss) s <= quad_form (P Ss) t) ↔
     (∀ t, length t = length Ss → binary_R t →
        quad_form Jm s + dot hv s <= quad_form Jm t + dot hv t)).
Proof.
  intros (HX & -> & -> & _)%penalty_Return.
  split; [intros s; by apply quad_form_P|].
  intros s Hs Hbin. split; intros Hmin t Ht Htbin.
  - rewrite <- !quad_form_P by done. by apply Hmin.
  - rewrite !quad_form_P by done. by apply Hmin.
Qed.

Lemma length_W rand Ss : length (W rand Ss) = length Ss.
Proof. unfold W. apply length_imap. Qed.

Lemma objective_diag Ss Ws :
  length Ws = length Ss → objective Ss Ws = diag Ws.
Proof.
  intros Hl. unfold objective. f_equal. apply list_eq. intros i.
  rewrite list_lookup_fmap. destruct (decide (i < length Ss)%nat) as [Hi|Hi].
  - rewrite lookup_seq_lt by done. simpl.
    destruct (lookup_lt_is_Some_2 Ws i) as [w Hw]; [lia|].
    by rewrite Hw, (nth_lookup_Some _ _ _ _ Hw).
  - rewrite lookup_seq_ge by lia. simpl. symmetry. apply lookup_ge_None. lia.
Qed.

Lemma rect_objective Ss Ws : rect (length Ss) (length Ss) (objective Ss Ws).
Proof.
  unfold objective.
  pose proof (rect_diag ((λ i, nth i Ws 0) <$> seq 0 (length Ss))) as Hd.
  by rewrite length_fmap, length_seq in Hd.
Qed.

Lemma dot_selected_weight Ws sample :
  binary sample →
  dot (IZR <$> sample) (zip_with Rmult Ws (IZR <$> sample)) =
  selected_weight Ws sample.
Proof.
  intros Hbin. revert Ws. induction Hbin as [|v sample Hv _ IH]; intros [|w Ws];
    simpl; try done.
  rewrite IH. destruct Hv as [-> | ->]; case_decide; try done; lra.
Qed.

End qubo_facts.

Section shape_facts.
Import SetPartition.
Context `{Countable K}.
Implicit Types (Ss : list (gset K)) (Ws C : list R) (M : list (list R)).
Local Open Scope R_scope.

Lemma square_rect n M : rect n n M → square M.
Proof. intros [Hl HM]. subst n. by split. Qed.

Lemma np_max_Return n M : rect n n M → n ≠ 0%nat → ∃ a, np_max M = Return a.
Proof.
  intros [Hl HM] Hn. unfold np_max.
  destruct HM as [|r M Hr _]; [simpl in Hl; lia|].
  destruct r as [|x r]; [simpl in Hr; lia|]. simpl. eauto.
Qed.

Lemma length_Ss_pos Ss : X Ss ≠ ∅ → length Ss ≠ 0%nat.
Proof. intros HX Hz. destruct Ss; [|done]. by apply HX. Qed.

Lemma Q_Return Ss Ws :
  X Ss ≠ ∅ → ∃ q, Q Ss Ws = Return q ∧ square q ∧ symmetric q.
Proof.
  intros HX. unfold Q, alpha.
  destruct (np_max_Return (length Ss) (objective Ss Ws)) as [a ->];
    [apply rect_objective|by apply length_Ss_pos|].
  eexists. split; [reflexivity|].
  pose proof (rect_objective Ss Ws) as Hobj.
  pose proof (rect_mscale a _ _ _ (rect_P Ss HX)) as HaP.
  split.
  - apply (square_rect (length Ss)). by apply rect_madd.
  - apply (symmetric_madd (length Ss)); [done..| |].
    + unfold objective. apply symmetric_diag.
    + apply (symmetric_mscale a (length Ss)); [by apply rect_P|by apply symmetric_P].
Qed.

Lemma hstack_col_Return n C M :
  length C = n → rect n n M →
  hstack_col C M = Return (zip_with cons C M) ∧
  rect n (S n) (zip_with cons C M).
Proof.
  intros HC [Hl HM]. unfold hstack_col. rewrite decide_True by congruence.
  split; [done|]. split.
  - rewrite length_zip_with. lia.
  - apply (Forall_zip_with_snd _ (λ r, length r = n)); [|done].
    apply Forall_true. intros c r Hr. simpl. by rewrite Hr.
Qed.

(** C4, amended.  The penalty QUBO [P] and the combined QUBO [Q] are square
    and symmetric.  The Hamiltonian data [H] that [sample_hamiltonian]
    builds from [n] linear terms and an [n]-by-[n] matrix has [n] rows of
    [n + 1] entries, so for [n > 0] it is not square. *)
Theorem uploaded_matrices_shape Ss Ws C M n :
  X Ss ≠ ∅ → length C = n → rect n n M →
  (square (P Ss) ∧ symmetric (P Ss)) ∧
  (∃ q, Q Ss Ws = Return q ∧ square q ∧ symmetric q) ∧
  (∃ Hm, hstack_col C M = Return Hm ∧ rect n (S n) Hm ∧
         (n ≠ 0%nat → ¬ square Hm)).
Proof.
  intros HX HC HM. split; [|split].
  - split; [|by apply symmetric_P]. by apply (square_rect (length Ss)), rect_P.
  - by apply Q_Return.
  - destruct (hstack_col_Return n C M HC HM) as [HH Hrect].
    eexists. split; [exact HH|]. split; [done|].
    intros Hn [_ Hrows]. destruct Hrect as [Hlen Hrect]. rewrite Hlen in Hrows.
    destruct (zip_with cons C M) as [|r Hm]; [simpl in Hlen; lia|].
    apply Forall_cons in Hrows as [Hr _]. apply Forall_cons in Hrect as [Hr' _]. lia.
Qed.
End shape_facts.

Section qubo_examples.
Import SetPartition Qudit.
Local Open Scope R_scope.

(** C4 as stated fails on the notebook's first Hamiltonian: the uploaded
    data has three rows of four entries. *)
Lemma hamiltonian_data_not_square :
  let H := [[-1; 0; 1; 1]; [0; 1; 0; 1]; [0; 1; 1; 0]] in
  sample_hamiltonian h_example J_example 400 1 (1 / 10) offline_client =
    ([CallUpload {| file_name := "qudit-tutorial-hame";
                    hamiltonian_data := H |}],
     Raise (ClientError "offline")) ∧
  ¬ (square H ∧ symmetric H).
Proof.
  split; [reflexivity|]. intros [[_ Hrows] _].
  apply Forall_cons in Hrows as [Hr _]. done.
Qed.

Lemma uploaded_matrices_shape_witness :
  (square (P S_data) ∧ symmetric (P S_data)) ∧
  (∃ q, Q S_data (replicate 9 1) = Return q ∧ square q ∧ symmetric q) ∧
  (∃ Hm, hstack_col h_example J_example = Return Hm ∧ rect 3 4 Hm ∧
         (3%nat ≠ 0%nat → ¬ square Hm)).
Proof.
  apply (uploaded_matrices_shape S_data (replicate 9 1) h_example J_example 3).
  - apply (bool_decide_unpack _). by vm_compute.
  - reflexivity.
  - split; [reflexivity|]. by repeat constructor.
Defined.

Lemma diagonal_folding_witness :
  (∀ s, length s = 9%nat → binary_R s →
     quad_form (P S_data) s = quad_form (J S_data) s + dot (h S_data) s) ∧
  (∀ s, length s = 9%nat → binary_R s →
     (∀ t, length t = 9%nat → binary_R t →
        quad_form (P S_data) s <= quad_form (P S_data) t) ↔
     (∀ t, length t = 9%nat → binary_R t →
        quad_form (J S_data) s + dot (h S_data) s <=
        quad_form (J S_data) t + dot (h S_data) t)).
Proof.
  apply (diagonal_folding S_data (J S_data) (h S_data) (offset S_data)).
  unfold penalty. rewrite decide_False; [done|].
  intros HA%(f_equal length). by vm_compute in HA.
Defined.

End qubo_examples.

(** ** The client adapter *)

Section adapter_facts.
Import Qudit.
Implicit Types (C : list R) (M : list (list R)) (client : QciClient).

Lemma hstack_col_rows C M i c r :
  C !! i = Some c → M !! i = Some r → zip_with cons C M !! i = Some (c :: r).
Proof. intros Hc Hr. by rewrite lookup_zip_with, Hc, Hr. Qed.

(** C8.  For [C] with [n] entries and an [n]-by-[n] matrix [M],
    [sample_hamiltonian] first uploads the [n]-by-[(n+1)] matrix whose row
    [i] is [C[i]] followed by row [i] of [M]; once the upload has returned a
    file id it asks for a job body whose parameters are the caller's
    [sum_constraint], [relaxation_schedule = schedule] and
    [solution_precision], with [nsamples = 1]; and once the job body is
    built its outcome is the outcome of [process_job], passed on as it is. *)
Theorem sample_hamiltonian_spec C M sum_constraint schedule solution_precision
    client n :
  length C = n → rect n n M →
  ∃ H,
    hstack_col C M = Return H ∧ rect n (S n) H ∧
    (∀ i c r, C !! i = Some c → M !! i = Some r → H !! i = Some (c :: r)) ∧
    let file := {| file_name := "qudit-tutorial-hame";
                   hamiltonian_data := H |} in
    (∃ rest,
       (sample_hamiltonian C M sum_constraint schedule solution_precision
          client).1 = CallUpload file :: rest) ∧
    ∀ uploaded file_id,
      upload_file client file = Return uploaded →
      py_getitem uploaded "file_id" = Return file_id →
      let args :=
        {| b_job_type := "sample-hamiltonian";
           b_hamiltonian_file_id := file_id;
           b_job_params :=
             {| p_sampler_type := "dirac-3";
                p_nsamples := 1;
                p_solution_precision := solution_precision;
                p_sum_constraint := sum_constraint;
                p_relaxation_schedule := schedule |};
           b_job_tags := ["qudit-tutorial"] |} in
      (∃ rest,
         (sample_hamiltonian C M sum_constraint schedule solution_precision
            client).1 = CallUpload file :: CallBuild args :: rest) ∧
      ∀ job_body,
        build_job_body client args = Return job_body →
        let pargs := {| pr_job_type := "sample-hamiltonian";
                        pr_job_body := job_body;
                        pr_wait := true |} in
        sample_hamiltonian C M sum_constraint schedule solution_precision
          client =
        ([CallUpload file; CallBuild args; CallProcess pargs],
         process_job client pargs).
Proof.
  intros HC HM. destruct (hstack_col_Return n C M HC HM) as [HH Hrect].
  exists (zip_with cons C M). split; [done|]. split; [done|].
  split; [apply hstack_col_rows|]. simpl.
  unfold sample_hamiltonian. rewrite HH. simpl. split.
  - destruct (upload_file client _) as [uploaded|e]; simpl; [|by eauto].
    destruct (py_getitem uploaded "file_id") as [file_id|e]; simpl; [|by eauto].
    destruct (build_job_body client _) as [job_body|e]; simpl; [|by eauto].
    destruct (process_job client _); simpl; by eauto.
  - intros uploaded file_id -> Hid. simpl. rewrite Hid. simpl. split.
    + destruct (build_job_body client _) as [job_body|e]; simpl; [|by eauto].
      destruct (process_job client _); simpl; by eauto.
    + intros job_body ->. simpl. by destruct (process_job client _).
Qed.

(** The call [sample_hamiltonian(h, J, 400, 1, 0.1, qclient)] of the
    notebook, against the stand-in client. *)
Lemma sample_hamiltonian_spec_witness :
  sample_hamiltonian h_example J_example 400 1 (1 / 10) stub_client =
    ([CallUpload {| file_name := "qudit-tutorial-hame";
                    hamiltonian_data :=
                      [[-1; 0; 1; 1]; [0; 1; 0; 1]; [0; 1; 1; 0]]%R |};
      CallBuild
        {| b_job_type := "sample-hamiltonian";
           b_hamiltonian_file_id := JStr "65dff356fd7ff43e52669ab3";
           b_job_params :=
             {| p_sampler_type := "dirac-3";
                p_nsamples := 1;
                p_solution_precision := (1 / 10)%R;
                p_sum_constraint := 400%R;
                p_relaxation_schedule := 1 |};
           b_job_tags := ["qudit-tutorial"] |};
      CallProcess
        {| pr_job_type := "sample-hamiltonian";
           pr_job_body := JDict {["job_type" := JStr "sample-hamiltonian"]};
           pr_wait := true |}],
     Return response_example).
Proof.
  destruct (sample_hamiltonian_spec h_example J_example 400 1 (1 / 10)
              stub_client 3) as (H & HH & _ & _ & _ & Hrun).
  - reflexivity.
  - split; [reflexivity|]. by repeat constructor.
  - injection HH as <-.
    destruct (Hrun _ _ eq_refl eq_refl) as [_ Hjob].
    exact (Hjob _ eq_refl).
Defined.
End adapter_facts.

(** ** The response reader *)

Section reader_facts.
Import Qudit.
Implicit Types (d ji r fc : gmap string json).

Lemma in_and_dict k d test :
  in_and k (JDict d) test =
  match d !! k with
  | Some item => test item
  | None => Return false
  end.
Proof. unfold in_and. simpl. by destruct (d !! k). Qed.

(** Without usable results the reader raises; with [job_info] absent or a
    dictionary the error is the [RuntimeError] with the job result. *)
Lemma get_results_missing d :
  d !! "results" = None ∨ d !! "results" = Some JNull →
  (∃ e, get_results (JDict d) = Raise e) ∧
  (d !! "job_info" = None →
   get_results (JDict d) = Raise (RuntimeError JNull)) ∧
  (∀ ji, d !! "job_info" = Some (JDict ji) →
   get_results (JDict d) =
     Raise (RuntimeError (default JNull (ji !! "job_result")))).
Proof.
  intros Hmiss.
  assert (Hok : in_and "results" (JDict d) (λ v, mret (negb (is_None v))) =
                Return false).
  { rewrite in_and_dict. by destruct Hmiss as [-> | ->]. }
  unfold get_results. rewrite Hok. simpl. rewrite in_and_dict. split; [|split].
  - destruct (d !! "job_info") as [j|] eqn:Hj; simpl; [|by eauto].
    destruct (py_in "job_result" j) as [[|]|e]; simpl; [|by eauto..].
    destruct (py_getitem j "job_result"); simpl; by eauto.
  - by intros ->.
  - intros ji Hj. rewrite Hj. simpl.
    by destruct (ji !! "job_result") as [v|] eqn:Hv.
Qed.

(** With results that are not [None] the reader never raises the
    [RuntimeError]. *)
Lemma get_results_present d res :
  d !! "results" = Some res → res ≠ JNull →
  get_results (JDict d) =
    (results_file_config ← py_getitem res "file_config";
     n ← py_len results_file_config;
     if decide (n = 1%nat) then
       values ← py_values results_file_config;
       list_getitem values 0
     else Raise (AssertionError "Unknown results format")).
Proof.
  intros Hres Hnn. unfold get_results. rewrite !in_and_dict, Hres.
  assert (Ht : negb (is_None res) = true) by (by destruct res).
  rewrite Ht. simpl. by rewrite Hres.
Qed.

Lemma get_results_config d r fc :
  d !! "results" = Some (JDict r) → r !! "file_config" = Some (JDict fc) →
  get_results (JDict d) =
    match map_to_list fc with
    | [(_, v)] => Return v
    | _ => Raise (AssertionError "Unknown results format")
    end.
Proof.
  intros Hres Hfc. rewrite (get_results_present d (JDict r)) by done.
  cbn [py_getitem mbind result_bind]. rewrite Hfc.
  cbn [py_len py_values mbind result_bind].
  rewrite <- length_map_to_list.
  destruct (map_to_list fc) as [|[k v] [|kv l]]; simpl; try done.
Qed.

Lemma get_results_no_RuntimeError d res details :
  d !! "results" = Some res → res ≠ JNull →
  get_results (JDict d) ≠ Raise (RuntimeError details).
Proof.
  intros Hres Hnn. rewrite (get_results_present d res) by done.
  unfold py_getitem, py_len, py_values, list_getitem.
  repeat (case_match; simpl; try done).
Qed.

(** C3, amended.  For a response dictionary, call the results missing when
    there is no ["results"] key or its value is [None].
    - With missing results [get_results] raises and returns nothing; the
      error is the [RuntimeError] carrying [None] when there is no
      ["job_info"] key, and carrying [job_info["job_result"]] (or [None]
      when that key is absent) when ["job_info"] is a dictionary.
    - The [RuntimeError] is raised only with missing results.
    - With results present whose ["file_config"] is a dictionary, the
      single value is returned when the dictionary has exactly one key, and
      [AssertionError("Unknown results format")] is raised otherwise: an
      error is also raised outside the first case. *)
Theorem get_results_spec d :
  let missing := d !! "results" = None ∨ d !! "results" = Some JNull in
  (missing → ∃ e, get_results (JDict d) = Raise e) ∧
  (∀ details, get_results (JDict d) = Raise (RuntimeError details) → missing) ∧
  (missing → d !! "job_info" = None →
   get_results (JDict d) = Raise (RuntimeError JNull)) ∧
  (missing → ∀ ji, d !! "job_info" = Some (JDict ji) →
   get_results (JDict d) =
     Raise (RuntimeError (default JNull (ji !! "job_result")))) ∧
  (∀ r fc k v,
     d !! "results" = Some (JDict r) → r !! "file_config" = Some (JDict fc) →
     fc = {[k := v]} → get_results (JDict d) = Return v) ∧
  (∀ r fc,
     d !! "results" = Some (JDict r) → r !! "file_config" = Some (JDict fc) →
     size fc ≠ 1 →
     get_results (JDict d) = Raise (AssertionError "Unknown results format")).
Proof.
  simpl. repeat split.
  - intros Hmiss. by apply get_results_missing.
  - intros details Hrun.
    destruct (d !! "results") as [res|] eqn:Hres; [|by left].
    assert (res = JNull ∨ res ≠ JNull) as [->|Hnn]
      by (destruct res; auto); [by right|].
    by apply (get_results_no_RuntimeError d res details) in Hrun.
  - intros Hmiss. by apply get_results_missing.
  - intros Hmiss. by apply get_results_missing.
  - intros r fc k v Hres Hfc ->. rewrite (get_results_config d r _ Hres Hfc).
    by rewrite map_to_list_singleton.
  - intros r fc Hres Hfc Hsize. rewrite (get_results_config d r _ Hres Hfc).
    rewrite <- length_map_to_list in Hsize.
    by destruct (map_to_list fc) as [|[k v] [|kv l]].
Qed.
End reader_facts.

Section reader_examples.
Import Qudit.

(** The displayed response yields its single results record. *)
Example get_results_example : get_results response_example = Return results_example.
Proof. by vm_compute. Qed.

(** With ["job_info"] present but [None] the membership test itself fails. *)
Example get_results_null_job_info :
  get_results (JDict (list_to_map [("job_info", JNull)])) = Raise TypeError.
Proof. by vm_compute. Qed.

Example get_results_failed :
  get_results (JDict failed_response) =
    Raise (RuntimeError (JDict (list_to_map [("error", JStr "timed out")]))).
Proof. by vm_compute. Qed.

(** C3 as stated fails: the results are present and not [None], yet an
    error is raised. *)
Lemma get_results_raises_with_results :
  empty_config_response !! "results" =
    Some (JDict (list_to_map [("file_config", JDict ∅)])) ∧
  get_results (JDict empty_config_response) =
    Raise (AssertionError "Unknown results format") ∧
  ¬ ((∃ e, get_results (JDict empty_config_response) = Raise e) ↔
     (empty_config_response !! "results" = None ∨
      empty_config_response !! "results" = Some JNull)).
Proof.
  assert (Hres : empty_config_response !! "results" =
                 Some (JDict (list_to_map [("file_config", JDict ∅)])))
    by (by vm_compute).
  assert (Hraise : get_results (JDict empty_config_response) =
                   Raise (AssertionError "Unknown results format"))
    by (by vm_compute).
  split; [done|]. split; [done|].
  intros [Hmiss _]. rewrite Hres in Hmiss.
  destruct Hmiss as [?|?]; [by eauto|done..].
Qed.
End reader_examples.

Section more_examples.
Import SetPartition Qudit.

(** Selecting the overlapping sets [S_0] and [S_8] covers half of [X] and
    is reported as no partition. *)
Example check_sample_overlap :
  (check_sample S_data response_data None 0 [1; 0; 0; 0; 0; 0; 0; 0; 1]%Z).1 =
    [PQuboValue (-6); PTimesFound 2; PSelectedSets; PSet 0; PSet 8;
     PNewline; PCoverage 50; PPartitionFound false].
Proof. vm_compute. reflexivity. Qed.

(** A sample with fewer entries than there are sets stops the loop with an
    [IndexError] after the selection printed so far. *)
Example check_sample_short :
  check_sample S_data response_data None 0 [0; 1]%Z =
    ([PQuboValue (-6); PTimesFound 2; PSelectedSets; PSet 1], Raise IndexError).
Proof. vm_compute. reflexivity. Qed.

(** With an empty universe the coverage line divides by zero. *)
Example check_sample_empty_universe :
  check_sample ([∅] : list (gset string)) response_data None 0 [1]%Z =
    ([PQuboValue (-6); PTimesFound 2; PSelectedSets; PSet 0; PNewline],
     Raise ZeroDivisionError).
Proof. vm_compute. reflexivity. Qed.

Lemma encoder_constraints_witness :
  length (A S_data) = 6%nat ∧ b S_data = replicate 6 1%R.
Proof.
  destruct (encoder_constraints S_data) as (_ & _ & _ & HA & _ & Hb).
  split; [exact HA|exact Hb].
Defined.

Lemma get_results_spec_witness :
  get_results (JDict failed_response) =
    Raise (RuntimeError (JDict (list_to_map [("error", JStr "timed out")]))).
Proof.
  destruct (get_results_spec failed_response) as (_ & _ & _ & Hinfo & _).
  apply (Hinfo (or_introl eq_refl) _ eq_refl).
Defined.
End more_examples.

(** ** Closed forms of the encoder's matrices *)

Section closed_forms.
Import SetPartition.
Context `{Countable K}.
Implicit Types (Ss : list (gset K)) (x : K) (T : gset K).
Local Open Scope R_scope.

Lemma transpose_n_table {U V} (f : U → V → R) (l1 : list U) (l2 : list V) :
  transpose_n (length l2) ((λ a, f a <$> l2) <$> l1) =
  (λ c, (λ a, f a c) <$> l1) <$> l2.
Proof.
  induction l1 as [|a l1 IH].
  - symmetry. by apply const_fmap.
  - rewrite fmap_cons. cbn [transpose_n].
    rewrite IH, zip_with_fmap_l, zip_with_fmap_r, zip_with_diag.
    apply list_fmap_ext. intros i c _. by rewrite fmap_cons.
Qed.

(** The columns of [A]: one per set, listing which elements it contains. *)
Lemma transpose_A Ss :
  X Ss ≠ ∅ →
  transpose (A Ss) =
  (λ S_i, (λ x, if decide (x ∈ S_i) then 1 else 0) <$> elements (X Ss)) <$> Ss.
Proof.
  intros HX. rewrite (transpose_rect (size (X Ss)) (length Ss)).
  - unfold A. apply (transpose_n_table (λ x S_i, if decide (x ∈ S_i) then 1 else 0)).
  - apply rect_A.
  - intros Hz. by apply size_X_pos in HX.
Qed.

Lemma dot_indicators (l : list K) T1 T2 :
  dot ((λ x, if decide (x ∈ T1) then 1 else 0) <$> l)
      ((λ x, if decide (x ∈ T2) then 1 else 0) <$> l) =
  INR (length (filter (λ x, x ∈ T1 ∩ T2) l)).
Proof.
  induction l as [|x l IH]; [done|].
  rewrite !fmap_cons, filter_cons. cbn [dot]. rewrite IH.
  repeat case_decide; cbn [length]; rewrite ?S_INR; try lra;
    exfalso; rewrite elem_of_intersection in *; tauto.
Qed.

Lemma length_filter_elements T (Xs : gset K) :
  T ⊆ Xs → length (filter (λ x, x ∈ T) (elements Xs)) = size T.
Proof.
  intros Hsub. unfold size, set_size. simpl. apply Permutation_length.
  apply NoDup_Permutation.
  - apply NoDup_filter, NoDup_elements.
  - apply NoDup_elements.
  - intros x. rewrite list_elem_of_filter, !elem_of_elements. split; [tauto|].
    intros Hx. split; [done|]. by apply Hsub.
Qed.

Lemma subseteq_X Ss i S_i : Ss !! i = Some S_i → S_i ⊆ X Ss.
Proof.
  intros Hi x Hx. apply elem_of_X. exists i. unfold covers. eauto.
Qed.

Lemma column_lookup Ss i S_i :
  X Ss ≠ ∅ → Ss !! i = Some S_i →
  nth i (transpose (A Ss)) [] =
  (λ x, if decide (x ∈ S_i) then 1 else 0) <$> elements (X Ss).
Proof.
  intros HX Hi. apply nth_lookup_Some.
  by rewrite transpose_A, list_lookup_fmap, Hi.
Qed.

Lemma entry_J Ss i j S_i S_j :
  X Ss ≠ ∅ → Ss !! i = Some S_i → Ss !! j = Some S_j →
  entry (J Ss) i j = INR (size (S_i ∩ S_j)).
Proof.
  intros HX Hi Hj.
  pose proof (lookup_lt_Some _ _ _ Hi) as Hli.
  pose proof (lookup_lt_Some _ _ _ Hj) as Hlj.
  assert (Hz : size (X Ss) = 0%nat → length Ss = 0%nat)
    by (intros Hz; by apply size_X_pos in HX).
  assert (HT : rect (length Ss) (size (X Ss)) (transpose (A Ss))).
  { rewrite (transpose_rect (size (X Ss)) (length Ss)); [|apply rect_A|done].
    apply rect_transpose_n, rect_A. }
  unfold J. rewrite (entry_matmul (length Ss) (size (X Ss)) (length Ss));
    [|done|apply rect_A|done..].
  rewrite <- (transpose_rect (size (X Ss)) (length Ss)); [|apply rect_A|done].
  rewrite (column_lookup Ss i S_i), (column_lookup Ss j S_j) by done.
  rewrite dot_indicators, length_filter_elements; [done|].
  intros x Hx. apply (subseteq_X Ss i S_i Hi).
  apply elem_of_intersection in Hx. tauto.
Qed.

Lemma dot_indicator_ones (l : list K) T (c : R) :
  dot ((λ x, if decide (x ∈ T) then 1 else 0) <$> l)
      (vscale c (replicate (length l) 1)) =
  c * INR (length (filter (λ x, x ∈ T) l)).
Proof.
  induction l as [|x l IH]; [simpl; lra|].
  rewrite fmap_cons, filter_cons. cbn [length replicate].
  unfold vscale in *. rewrite fmap_cons. cbn [dot]. rewrite IH.
  case_decide; cbn [length]; rewrite ?S_INR; lra.
Qed.

Lemma lookup_h Ss i S_i :
  X Ss ≠ ∅ → Ss !! i = Some S_i → h Ss !! i = Some (-2 * INR (size S_i)).
Proof.
  intros HX Hi. unfold h, vecmat, matvec.
  rewrite transpose_A, list_lookup_fmap, list_lookup_fmap, Hi by done. simpl.
  f_equal. unfold b. destruct (rect_A Ss) as [-> _].
  change (size (X Ss)) with (length (elements (X Ss))).
  rewrite dot_indicator_ones, length_filter_elements; [done|].
  by apply (subseteq_X Ss i).
Qed.

Lemma dot_ones n : dot (replicate n 1) (replicate n 1) = INR n.
Proof.
  induction n as [|n IH]; [done|].
  cbn [replicate dot]. rewrite IH, S_INR. lra.
Qed.

Lemma offset_size Ss : offset Ss = INR (size (X Ss)).
Proof. unfold offset, b. destruct (rect_A Ss) as [-> _]. apply dot_ones. Qed.

(** X1.  The quadratic penalty term counts shared members: when the penalty
    cell has run, [J[i][j]] is the number of elements that the sets [S_i] and
    [S_j] have in common (so [J[i][i]] is the size of [S_i]). *)
Theorem J_counts_common_members Ss Jm hv c i j S_i S_j :
  penalty Ss = Return (Jm, hv, c) →
  Ss !! i = Some S_i → Ss !! j = Some S_j →
  ∃ row, Jm !! i = Some row ∧ row !! j = Some (INR (size (S_i ∩ S_j))).
Proof.
  intros (HX & -> & _)%penalty_Return Hi Hj.
  destruct (rect_entry (length Ss) (length Ss) (J Ss) i j) as (row & Hrow & He).
  - by apply rect_J.
  - by apply lookup_lt_Some in Hi.
  - by apply lookup_lt_Some in Hj.
  - exists row. split; [done|]. by rewrite He, (entry_J Ss i j S_i S_j).
Qed.

(** X2.  When the penalty cell has run, the linear term of set [S_i] is
    minus twice its size, and the offset is the number of elements of [X]. *)
Theorem h_and_offset_sizes Ss Jm hv c :
  penalty Ss = Return (Jm, hv, c) →
  length hv = length Ss ∧
  (∀ i S_i, Ss !! i = Some S_i → hv !! i = Some (-2 * INR (size S_i))) ∧
  c = INR (size (X Ss)).
Proof.
  intros (HX & _ & -> & ->)%penalty_Return.
  split; [by apply length_h|]. split; [|apply offset_size].
  intros i S_i Hi. by apply lookup_h.
Qed.

(** X3.  The uploaded penalty QUBO [P]: when the penalty cell has run, the
    diagonal entry of set [S_i] is minus its size and the entry of two
    different sets is the number of their common elements. *)
Theorem P_entries Ss Jm hv c i j S_i S_j :
  penalty Ss = Return (Jm, hv, c) →
  Ss !! i = Some S_i → Ss !! j = Some S_j →
  ∃ row, P Ss !! i = Some row ∧
    row !! j = Some (if decide (i = j) then - INR (size S_i)
                     else INR (size (S_i ∩ S_j))).
Proof.
  intros (HX & _)%penalty_Return Hi Hj.
  pose proof (lookup_lt_Some _ _ _ Hi) as Hli.
  pose proof (lookup_lt_Some _ _ _ Hj) as Hlj.
  destruct (rect_entry (length Ss) (length Ss) (P Ss) i j) as (row & Hrow & He);
    [by apply rect_P|done..|].
  exists row. split; [done|]. rewrite He. f_equal. unfold P.
  assert (Hd : rect (length Ss) (length Ss) (diag (h Ss))).
  { rewrite <- (length_h Ss HX). apply rect_diag. }
  rewrite (entry_madd (length Ss) (length Ss)); [|by apply rect_J|done..].
  rewrite (entry_J Ss i j S_i S_j), entry_diag by (by rewrite ?length_h).
  case_decide as Hij.
  - subst j. rewrite Hi in Hj. injection Hj as <-.
    rewrite (nth_lookup_Some _ _ _ _ (lookup_h Ss i S_i HX Hi)).
    replace (S_i ∩ S_i) with S_i by (apply set_eq; intros x;
      rewrite elem_of_intersection; tauto).
    lra.
  - lra.
Qed.
End closed_forms.

Section closed_form_examples.
Import SetPartition.
Local Open Scope R_scope.

Lemma S_data_penalty :
  penalty S_data = Return (J S_data, h S_data, offset S_data).
Proof.
  unfold penalty. rewrite decide_False; [done|].
  intros HA%(f_equal length). by vm_compute in HA.
Defined.

(** [S_0 = {A, B, C}] and [S_8 = {B, C}] share two elements. *)
Lemma J_counts_common_members_witness :
  ∃ row, J S_data !! 0%nat = Some row ∧
         row !! 8%nat = Some (INR (size (({["A"; "B"; "C"]} : gset string) ∩ {["B"; "C"]}))).
Proof.
  exact (J_counts_common_members S_data _ _ _ 0 8 _ _ S_data_penalty eq_refl eq_refl).
Defined.

Lemma h_and_offset_sizes_witness :
  length (h S_data) = 9%nat ∧
  (∀ i S_i, S_data !! i = Some S_i → h S_data !! i = Some (-2 * INR (size S_i))) ∧
  offset S_data = INR (size (X S_data)).
Proof. exact (h_and_offset_sizes S_data _ _ _ S_data_penalty). Defined.

Lemma P_entries_witness :
  ∃ row, P S_data !! 1%nat = Some row ∧
         row !! 1%nat = Some (- INR (size ({["D"; "E"; "F"]} : gset string))).
Proof.
  exact (P_entries S_data _ _ _ 1 1 _ _ S_data_penalty eq_refl eq_refl).
Defined.
End closed_form_examples.

(** ** The value of the QUBO forms *)

Section qubo_values.
Import SetPartition.
Context `{Countable K}.
Implicit Types (Ss : list (gset K)) (x : K) (s : list R) (sample : list Z).
Local Open Scope R_scope.

Lemma penalty_norm Ss s :
  X Ss ≠ ∅ → length s = length Ss →
  quad_form (J Ss) s + dot (h Ss) s + offset Ss =
  norm2 (vsub (matvec (A Ss) s) (b Ss)).
Proof.
  intros HX Hs. rewrite norm2_vsub.
  - rewrite quad_form_J, dot_h by done. unfold offset. lra.
  - rewrite length_matvec, length_b. apply rect_A.
Qed.

Lemma matvec_A_counts Ss s :
  binary_R s →
  matvec (A Ss) s =
  INR <$> ((λ x, multiplicity x (picked 1 Ss s)) <$> elements (X Ss)).
Proof.
  intros Hs. unfold A, matvec. rewrite <- !list_fmap_compose.
  apply list_fmap_ext. intros i x _. simpl. by apply row_dot.
Qed.

(** A vector of natural numbers is either all ones or at squared distance at
    least one from the all-ones vector. *)
Lemma norm2_gap (ms : list nat) :
  INR <$> ms = replicate (length ms) 1 ∨
  1 <= norm2 (vsub (INR <$> ms) (replicate (length ms) 1)).
Proof.
  induction ms as [|m ms IH]; [by left|].
  rewrite fmap_cons. cbn [length replicate]. unfold norm2, vsub in *.
  cbn [zip_with dot].
  pose proof (norm2_nonneg (zip_with Rminus (INR <$> ms) (replicate (length ms) 1)))
    as Hn. unfold norm2 in Hn.
  destruct (decide (m = 1%nat)) as [->|Hm].
  - destruct IH as [-> | IH]; [by left|]. right. simpl. lra.
  - right. assert (INR m = 0 ∨ 2 <= INR m) as [-> | Hm2].
    { destruct m as [|[|m]]; [by left|done|]. right.
      rewrite !S_INR. pose proof (pos_INR m). lra. }
    + lra.
    + nra.
Qed.

(** X4.  The value of the penalty QUBO: when the penalty cell has run, a
    binary [s] with one entry per set has [s^T P s = ||A s - b||^2 - |X|].
    It is never below [-|X|], it equals [-|X|] exactly for the exact covers
    (the [-6] of the notebook's six elements), and every other binary vector
    is at least one above that. *)
Theorem P_value Ss Jm hv c s :
  penalty Ss = Return (Jm, hv, c) → length s = length Ss → binary_R s →
  quad_form (P Ss) s =
    norm2 (vsub (matvec (A Ss) s) (b Ss)) - INR (size (X Ss)) ∧
  - INR (size (X Ss)) <= quad_form (P Ss) s ∧
  (quad_form (P Ss) s = - INR (size (X Ss)) ↔ exact_cover Ss (selected 1 s)) ∧
  (¬ exact_cover Ss (selected 1 s) →
   1 - INR (size (X Ss)) <= quad_form (P Ss) s).
Proof.
  intros (HX & _)%penalty_Return Hs Hbin.
  assert (Hval : quad_form (P Ss) s =
                 norm2 (vsub (matvec (A Ss) s) (b Ss)) - INR (size (X Ss))).
  { rewrite quad_form_P, <- penalty_norm, offset_size by done. lra. }
  assert (Hlen : length (matvec (A Ss) s) = length (b Ss)).
  { rewrite length_matvec, length_b. apply rect_A. }
  pose proof (norm2_nonneg (vsub (matvec (A Ss) s) (b Ss))) as Hn.
  split; [done|]. split; [lra|]. split.
  - rewrite <- (matvec_A Ss s Hbin), <- (norm2_vsub_zero _ _ Hlen). split; lra.
  - intros Hnot. rewrite Hval.
    assert (Hgap : matvec (A Ss) s = b Ss ∨
                   1 <= norm2 (vsub (matvec (A Ss) s) (b Ss))).
    { rewrite (matvec_A_counts Ss s Hbin). unfold b, A.
      rewrite length_fmap.
      pose proof (norm2_gap ((λ x, multiplicity x (picked 1 Ss s))
                               <$> elements (X Ss))) as Hg.
      by rewrite length_fmap in Hg. }
    destruct Hgap as [Heq|Hge]; [|lra].
    by apply (matvec_A Ss s Hbin) in Heq.
Qed.

Lemma binary_IZR sample : binary sample → binary_R (IZR <$> sample).
Proof.
  intros Hb. apply Forall_fmap. eapply Forall_impl; [exact Hb|].
  intros v [-> | ->]; simpl; auto.
Qed.

Lemma selected_IZR sample i :
  selected 1 (IZR <$> sample) i ↔ selected 1%Z sample i.
Proof.
  unfold selected. rewrite list_lookup_fmap. split.
  - destruct (sample !! i) as [v|]; [|done]. simpl. intros [= Hv].
    by apply eq_IZR in Hv as ->.
  - by intros ->.
Qed.

Lemma exact_cover_IZR Ss sample :
  exact_cover Ss (selected 1 (IZR <$> sample)) ↔
  exact_cover Ss (selected 1%Z sample).
Proof.
  unfold exact_cover. apply forall_proper. intros x. apply forall_proper.
  intros Hx. split; intros (i & [Hs Hc] & Huniq); exists i.
  - split; [by rewrite <- selected_IZR|].
    intros k [Hk Hck]. apply Huniq. by rewrite selected_IZR.
  - split; [by rewrite selected_IZR|].
    intros k [Hk Hck]. apply Huniq. by rewrite <- selected_IZR.
Qed.

Lemma objective_quad_form Ss (Ws : list R) sample :
  length Ws = length Ss → length sample = length Ss → binary sample →
  quad_form (objective Ss Ws) (IZR <$> sample) = selected_weight Ws sample.
Proof.
  intros HW Hs Hbin.
  rewrite (quad_form_dot (length Ss));
    [|apply rect_objective|by rewrite length_fmap].
  rewrite objective_diag, matvec_diag by (by rewrite ?length_fmap; lia).
  by apply dot_selected_weight.
Qed.

(** X5.  The combined QUBO splits into objective and penalty: when the
    penalty cell has run and [Q] was built with [alpha = a], a binary sample
    with one entry per set has
    [s^T Q s = (sum of the selected weights) + a * (s^T P s)], which for an
    exact cover is the sum of the selected weights minus [a * |X|]. *)
Theorem Q_value Ss (Ws : list R) Jm hv c a q sample :
  penalty Ss = Return (Jm, hv, c) → length Ws = length Ss →
  alpha Ss Ws = Return a → Q Ss Ws = Return q →
  length sample = length Ss → binary sample →
  quad_form q (IZR <$> sample) =
    selected_weight Ws sample + a * quad_form (P Ss) (IZR <$> sample) ∧
  (exact_cover Ss (selected 1%Z sample) →
   quad_form q (IZR <$> sample) =
     selected_weight Ws sample - a * INR (size (X Ss))).
Proof.
  intros Hpen HW Ha HQ Hs Hbin.
  pose proof Hpen as (HX & _)%penalty_Return.
  unfold Q in HQ. rewrite Ha in HQ. injection HQ as <-.
  assert (Hval : quad_form (madd (objective Ss Ws) (mscale a (P Ss)))
                   (IZR <$> sample) =
                 selected_weight Ws sample +
                 a * quad_form (P Ss) (IZR <$> sample)).
  { rewrite (quad_form_madd (length Ss));
      [|apply rect_objective|by apply rect_mscale, rect_P
       |by rewrite length_fmap].
    rewrite (quad_form_mscale a (length Ss));
      [|by apply rect_P|by rewrite length_fmap].
    by rewrite objective_quad_form. }
  split; [done|]. intros Hcover. rewrite Hval.
  assert (Hmin : quad_form (P Ss) (IZR <$> sample) = - INR (size (X Ss))).
  { rewrite quad_form_P, <- (Rplus_0_r (_ + _)) by
      (done || by rewrite length_fmap || by apply binary_IZR).
    assert (Hzero : quad_form (J Ss) (IZR <$> sample) +
                    dot (h Ss) (IZR <$> sample) + offset Ss = 0).
    { rewrite penalty_norm by (done || by rewrite length_fmap).
      apply norm2_vsub_zero.
      - rewrite length_matvec, length_b. apply rect_A.
      - apply matvec_A; [by apply binary_IZR|]. by apply exact_cover_IZR. }
    rewrite offset_size in Hzero. lra. }
  rewrite Hmin. lra.
Qed.

Lemma foldl_Rmax_ge (x : R) (l : list R) :
  x <= foldl Rmax x l ∧ ∀ y, y ∈ l → y <= foldl Rmax x l.
Proof.
  revert x. induction l as [|z l IH]; intros x; simpl.
  - split; [lra|]. by intros y ?%elem_of_nil.
  - destruct (IH (Rmax x z)) as [Hx Hl]. split.
    + pose proof (Rmax_l x z). lra.
    + intros y [->|Hy]%elem_of_cons; [|by apply Hl].
      pose proof (Rmax_r x z). lra.
Qed.

Lemma foldl_Rmax_elem (x : R) (l : list R) : foldl Rmax x l ∈ x :: l.
Proof.
  revert x. induction l as [|z l IH]; intros x; simpl; [by left|].
  specialize (IH (Rmax x z)). apply elem_of_cons in IH as [->|Hin].
  - unfold Rmax. destruct (Rle_dec x z); [right; by left|by left].
  - by do 2 right.
Qed.

Lemma elem_of_diag (v : list R) (y : R) :
  y ∈ concat (diag v) → y ∈ v ∨ y = 0.
Proof.
  intros Hy. apply list_elem_of_In, in_concat in Hy as (row & Hrow & Hy).
  apply list_elem_of_In, list_elem_of_lookup in Hrow as [i Hi].
  unfold diag in Hi. rewrite list_lookup_imap in Hi.
  destruct (v !! i) as [w|] eqn:Hw; [|done]. injection Hi as <-.
  apply list_elem_of_In, list_elem_of_lookup in Hy as [k Hk].
  destruct (decide (i = k)) as [->|Hne].
  - rewrite list_lookup_insert_eq in Hk
      by (rewrite length_replicate; by apply lookup_lt_Some in Hw).
    injection Hk as <-. left. apply list_elem_of_lookup. eauto.
  - rewrite list_lookup_insert_ne in Hk by done.
    apply lookup_replicate in Hk as [-> _]. by right.
Qed.

Lemma diag_elem_of (v : list R) (w : R) : w ∈ v → w ∈ concat (diag v).
Proof.
  intros [i Hi]%list_elem_of_lookup. apply list_elem_of_In, in_concat.
  exists (<[i := w]> (replicate (length v) 0)). split.
  - apply list_elem_of_In, list_elem_of_lookup. exists i. unfold diag.
    by rewrite list_lookup_imap, Hi.
  - apply list_elem_of_In, list_elem_of_lookup. exists i.
    apply list_lookup_insert_eq. rewrite length_replicate.
    by apply lookup_lt_Some in Hi.
Qed.

(** X6.  The penalty multiplier: [alpha = np.max(objective)] is raised only
    for an empty collection; otherwise it is at least every weight, and it is
    one of the weights or the zero that fills the rest of the matrix. *)
Theorem alpha_is_largest_entry Ss (Ws : list R) :
  length Ws = length Ss →
  (Ss = [] → alpha Ss Ws = Raise ValueError) ∧
  (Ss ≠ [] → ∃ a, alpha Ss Ws = Return a ∧
               (∀ w, w ∈ Ws → w <= a) ∧ (a ∈ Ws ∨ a = 0)).
Proof.
  intros HW. split.
  - intros ->. by destruct Ws.
  - intros Hne. unfold alpha. rewrite objective_diag by done. unfold np_max.
    destruct (concat (diag Ws)) as [|y l] eqn:Hc.
    + destruct Ss as [|S_0 Ss]; [done|]. destruct Ws as [|w Ws]; [done|].
      assert (w ∈ concat (diag (w :: Ws))) as Hin by (apply diag_elem_of; by left).
      rewrite Hc in Hin. by apply elem_of_nil in Hin.
    + eexists. split; [done|]. split.
      * intros w Hw%diag_elem_of. rewrite Hc in Hw.
        destruct (foldl_Rmax_ge y l) as [Hy Hl].
        apply elem_of_cons in Hw as [->|Hw]; [done|by apply Hl].
      * apply elem_of_diag. rewrite Hc. apply foldl_Rmax_elem.
Qed.

(** X7.  The penalty cell fails exactly on an empty universe: it raises
    [IndexError] when every set of the collection is empty (in particular
    for the empty collection) and returns its three values otherwise. *)
Theorem penalty_fails_on_empty_universe Ss :
  (penalty Ss = Raise IndexError ↔ Forall (λ S_i, S_i = ∅) Ss) ∧
  (penalty Ss = Return (J Ss, h Ss, offset Ss) ↔ ∃ S_i x, S_i ∈ Ss ∧ x ∈ S_i).
Proof.
  assert (Hempty : X Ss = ∅ ↔ Forall (λ S_i, S_i = ∅) Ss).
  { rewrite X_union_list. rewrite Forall_forall. split.
    - intros HX S_i Hin. apply set_eq. intros x. split; [|by intros ?%not_elem_of_empty].
      intros Hx. rewrite <- HX. apply elem_of_union_list. eauto.
    - intros Hall. apply set_eq. intros x. split; [|by intros ?%not_elem_of_empty].
      intros (S_i & Hin & Hx)%elem_of_union_list. by rewrite (Hall S_i Hin) in Hx. }
  unfold penalty. case_decide as HA; rewrite A_empty in HA.
  - split; [by rewrite <- Hempty|]. split; [done|].
    intros (S_i & x & Hin & Hx). apply Hempty in HA.
    rewrite Forall_forall in HA. rewrite (HA S_i Hin) in Hx.
    by apply not_elem_of_empty in Hx.
  - split; [split; [done|by intros ?%Hempty]|]. split; [|done]. intros _.
    apply set_choose_L in HA as [x Hx]. rewrite X_union_list in Hx.
    apply elem_of_union_list in Hx as (S_i & Hin & Hx). eauto.
Qed.
End qubo_values.

Section qubo_value_examples.
Import SetPartition.
Local Open Scope R_scope.

Lemma binary_R_cover : binary_R [1; 1; 0; 0; 0; 0; 0; 0; 0].
Proof.
  unfold binary_R.
  repeat first [apply Forall_nil | apply Forall_cons | split | by left | by right].
Defined.

(** [S_0] and [S_1] are an exact cover: the QUBO value is [-6], as printed. *)
Lemma P_value_witness :
  quad_form (P S_data) [1; 1; 0; 0; 0; 0; 0; 0; 0] = - INR (size (X S_data)) ↔
  exact_cover S_data (selected 1 [1; 1; 0; 0; 0; 0; 0; 0; 0]).
Proof.
  exact (proj1 (proj2 (proj2
    (P_value S_data _ _ _ [1; 1; 0; 0; 0; 0; 0; 0; 0] S_data_penalty eq_refl
       binary_R_cover)))).
Defined.

Lemma alpha_is_largest_entry_witness :
  ∃ a, alpha S_data [5; 29; 72; 2; 21; 5; 30; 66; 31] = Return a ∧
       (∀ w, w ∈ [5; 29; 72; 2; 21; 5; 30; 66; 31] → w <= a) ∧
       (a ∈ [5; 29; 72; 2; 21; 5; 30; 66; 31] ∨ a = 0).
Proof.
  apply (alpha_is_largest_entry S_data [5; 29; 72; 2; 21; 5; 30; 66; 31]);
    [reflexivity|discriminate].
Defined.

Lemma binary_cover : binary [1; 1; 0; 0; 0; 0; 0; 0; 0]%Z.
Proof.
  unfold binary.
  repeat first [apply Forall_nil | apply Forall_cons | split | by left | by right].
Defined.

Lemma Q_value_witness :
  ∃ a q,
    alpha S_data [5; 29; 72; 2; 21; 5; 30; 66; 31] = Return a ∧
    Q S_data [5; 29; 72; 2; 21; 5; 30; 66; 31] = Return q ∧
    quad_form q (IZR <$> [1; 1; 0; 0; 0; 0; 0; 0; 0]%Z) =
      selected_weight [5; 29; 72; 2; 21; 5; 30; 66; 31]
        [1; 1; 0; 0; 0; 0; 0; 0; 0]%Z +
      a * quad_form (P S_data) (IZR <$> [1; 1; 0; 0; 0; 0; 0; 0; 0]%Z).
Proof.
  eexists. eexists. split; [reflexivity|]. split; [reflexivity|].
  exact (proj1 (Q_value S_data [5; 29; 72; 2; 21; 5; 30; 66; 31] _ _ _ _ _
                  [1; 1; 0; 0; 0; 0; 0; 0; 0]%Z S_data_penalty eq_refl
                  eq_refl eq_refl eq_refl binary_cover)).
Defined.
End qubo_value_examples.

(** ** The result interpreter on arbitrary input *)

Set Warnings "-clear-no-such-hyp".


Section interpreter_cases.
Import SetPartition.
Context `{Countable K}.
Implicit Types (Ss : list (gset K)) (sample : list Z).

Lemma select_loop_log i Ss sample st :
  Forall (λ ln, ∃ k, ln = PSet k) (select_loop i Ss sample st).1.
Proof.
  revert i st. induction Ss as [|S_i Ss IH]; intros i st; [by constructor|].
  simpl. unfold list_getitem. destruct (sample !! i) as [s_i|]; simpl; [|done].
  case_decide; simpl.
  - specialize (IH (S i) (st.1 ∪ S_i, st.2 ++ elements S_i)).
    destruct (select_loop _ _ _ _) as [o r]. simpl in *.
    destruct r; simpl; constructor; eauto.
  - specialize (IH (S i) st).
    destruct (select_loop _ _ _ _) as [o r]. simpl in *. by destruct r.
Qed.

(** A sample with fewer entries than there are sets stops the loop. *)
Lemma select_loop_short i Ss sample st :
  i ≤ length sample → length sample < i + length Ss →
  (select_loop i Ss sample st).2 = Raise IndexError.
Proof.
  revert i st. induction Ss as [|S_i Ss IH]; intros i st Hi Hlen;
    [simpl in Hlen; lia|].
  simpl. unfold list_getitem.
  destruct (sample !! i) as [s_i|] eqn:Hs; simpl; [|done].
  apply lookup_lt_Some in Hs. simpl in Hlen.
  case_decide; simpl.
  - specialize (IH (S i) (st.1 ∪ S_i, st.2 ++ elements S_i) ltac:(lia) ltac:(lia)).
    destruct (select_loop _ _ _ _) as [o r]. simpl in *. by subst r.
  - specialize (IH (S i) st ltac:(lia) ltac:(lia)).
    destruct (select_loop _ _ _ _) as [o r]. simpl in *. by subst r.
Qed.

(** The lines printed by the loop are the selected indices, in order. *)
Lemma select_loop_indices i Ss sample st :
  i + length Ss ≤ length sample →
  (select_loop i Ss sample st).1 =
  PSet <$> filter (λ k, sample !! k = Some 1%Z) (seq i (length Ss)).
Proof.
  revert i st. induction Ss as [|S_i Ss IH]; intros i st Hlen; [done|].
  simpl in Hlen. destruct (lookup_lt_is_Some_2 sample i) as [s_i Hs]; [lia|].
  cbn [length seq]. rewrite filter_cons. cbn [select_loop]. unfold list_getitem.
  rewrite Hs, eff_bind_lift_Return. case_decide as H1.
  - subst s_i. rewrite decide_True by done.
    specialize (IH (S i) (st.1 ∪ S_i, st.2 ++ elements S_i) ltac:(lia)).
    rewrite fmap_cons, <- IH.
    unfold emit, mret, eff_mret, eff_ret, mbind, eff_mbind, eff_bind.
    destruct (select_loop (S i) Ss sample _) as [o r]. by destruct r.
  - rewrite decide_False by congruence.
    specialize (IH (S i) st ltac:(lia)). rewrite <- IH, eff_bind_mret. done.
Qed.

(** The whole of one pass of the loop body, once the energy and the count
    of the sample are there. *)
Lemma check_sample_cases Ss results objective j sample e c :
  energies results !! j = Some e → counts results !! j = Some c →
  check_sample Ss results objective j sample =
  let head := [PQuboValue e; PTimesFound c] in
  match match objective with
        | Some obj => v ← objective_value obj sample; mret [PObjective v]
        | None => Return []
        end with
  | Raise err => (head, Raise err)
  | Return ol =>
      let sel := select_loop 0 Ss sample (∅, []) in
      match sel.2 with
      | Raise err => (head ++ ol ++ PSelectedSets :: sel.1, Raise err)
      | Return st =>
          match coverage st.1 (X Ss) with
          | Raise err =>
              (head ++ ol ++ PSelectedSets :: sel.1 ++ [PNewline], Raise err)
          | Return pct =>
              (head ++ ol ++ PSelectedSets :: sel.1 ++
               [PNewline; PCoverage pct;
                PPartitionFound (bool_decide (size st.1 = length st.2))],
               Return tt)
          end
      end
  end.
Proof.
  intros He Hc. unfold check_sample, list_getitem. rewrite He, Hc. simpl.
  destruct objective as [obj|]; simpl.
  - destruct (objective_value obj sample) as [v|err]; simpl; [|done].
    destruct (select_loop 0 Ss sample (∅, [])) as [o [st|err]]; simpl; [|done].
    destruct (coverage st.1 (X Ss)); simpl; [|done].
    by rewrite <- ?app_assoc.
  - destruct (select_loop 0 Ss sample (∅, [])) as [o [st|err]]; simpl; [|done].
    destruct (coverage st.1 (X Ss)); simpl; [|done].
    by rewrite <- ?app_assoc.
Qed.

Lemma select_loop_Return Ss sample st :
  (select_loop 0 Ss sample (∅, [])).2 = Return st →
  length Ss ≤ length sample ∧
  st = (⋃ picked 1%Z Ss sample, concat (elements <$> picked 1%Z Ss sample)).
Proof.
  intros Hret. destruct (decide (length Ss ≤ length sample)) as [Hle|Hgt].
  - split; [done|].
    destruct (select_loop_spec 0 Ss sample (∅, [])) as (o & Ho & _); [simpl; lia|].
    rewrite Ho, drop_0 in Hret. simpl in Hret. injection Hret as <-.
    by rewrite (left_id_L ∅ (∪)).
  - rewrite (select_loop_short 0 Ss sample) in Hret by (simpl; lia). done.
Qed.

Lemma select_loop_Raise Ss sample err :
  (select_loop 0 Ss sample (∅, [])).2 = Raise err →
  length sample < length Ss ∧ err = IndexError.
Proof.
  intros Hr. destruct (decide (length Ss ≤ length sample)) as [Hle|Hgt].
  - destruct (select_loop_spec 0 Ss sample (∅, [])) as (o & Ho & _); [simpl; lia|].
    by rewrite Ho in Hr.
  - rewrite (select_loop_short 0 Ss sample) in Hr by (simpl; lia).
    injection Hr as <-. split; [lia|done].
Qed.

(** Where the verdict lines of a block come from. *)
Lemma check_sample_verdict Ss results objective j sample ln :
  ln ∈ (check_sample Ss results objective j sample).1 →
  (∃ q, ln = PCoverage q) ∨ (∃ f, ln = PPartitionFound f) →
  (check_sample Ss results objective j sample).2 = Return tt ∧
  length Ss ≤ length sample ∧ size (X Ss) ≠ 0 ∧
  (ln = PCoverage (Qred (Z.of_nat (100 * size (⋃ picked 1%Z Ss sample))
                         # Pos.of_nat (size (X Ss)))) ∨
   ln = PPartitionFound
          (bool_decide (size (⋃ picked 1%Z Ss sample) =
                        length (concat (elements <$> picked 1%Z Ss sample))))).
Proof.
  intros Hin Hkind.
  assert (Hsel : ∀ o : list line, Forall (λ ln, ∃ k, ln = PSet k) o → ln ∉ o).
  { intros o Ho Hln. rewrite Forall_forall in Ho.
    destruct (Ho ln Hln) as [k ->]. by destruct Hkind as [[? ?]|[? ?]]. }
  destruct (energies results !! j) as [e|] eqn:He; cycle 1.
  { unfold check_sample, list_getitem in Hin. rewrite He in Hin.
    by apply elem_of_nil in Hin. }
  destruct (counts results !! j) as [c|] eqn:Hc; cycle 1.
  { unfold check_sample, list_getitem in Hin. rewrite He, Hc in Hin.
    simpl in Hin. apply elem_of_cons in Hin as [->|Hin%elem_of_nil]; [|done].
    by destruct Hkind as [[? ?]|[? ?]]. }
  rewrite (check_sample_cases Ss results objective j sample e c He Hc) in Hin |- *.
  cbv zeta in *.
  pose proof (select_loop_log 0 Ss sample (∅, [])) as Hlog.
  destruct (match objective with Some _ => _ | None => _ end) as [ol|err] eqn:Hobj;
    cycle 1.
  { simpl in Hin. rewrite !elem_of_cons, elem_of_nil in Hin.
    destruct Hkind as [[? ->]|[? ->]]; naive_solver. }
  assert (Hol : ln ∉ ol).
  { destruct objective as [obj|]; simpl in Hobj.
    - destruct (objective_value obj sample); simpl in Hobj; [|done].
      injection Hobj as <-. rewrite elem_of_cons, elem_of_nil.
      destruct Hkind as [[? ->]|[? ->]]; naive_solver.
    - injection Hobj as <-. apply not_elem_of_nil. }
  destruct (select_loop 0 Ss sample (∅, [])) as [o [st|err]] eqn:Hloop;
    cbn [fst snd] in *; cycle 1.
  { cbn [fst snd] in Hin.
    repeat rewrite ?elem_of_app, ?elem_of_cons, ?elem_of_nil in Hin.
    specialize (Hsel o Hlog). destruct Hkind as [[? ->]|[? ->]]; naive_solver. }
  assert (Hst : (select_loop 0 Ss sample (∅, [])).2 = Return st)
    by (by rewrite Hloop).
  apply select_loop_Return in Hst as [Hlen ->]. cbn [fst snd] in *.
  unfold coverage in *. case_decide as Hsize; cycle 1.
  - split; [done|]. split; [done|]. split; [done|].
    cbn [fst snd] in Hin.
    repeat rewrite ?elem_of_app, ?elem_of_cons, ?elem_of_nil in Hin.
    specialize (Hsel o Hlog). destruct Hkind as [[? ->]|[? ->]]; naive_solver.
  - cbn [fst snd] in Hin.
    repeat rewrite ?elem_of_app, ?elem_of_cons, ?elem_of_nil in Hin.
    specialize (Hsel o Hlog). destruct Hkind as [[? ->]|[? ->]]; naive_solver.
Qed.
End interpreter_cases.

Section interpreter_edges.
Import SetPartition.
Context `{Countable K}.
Implicit Types (Ss : list (gset K)) (sample : list Z).

Lemma check_sample_Return Ss results objective j sample :
  (check_sample Ss results objective j sample).2 = Return tt →
  ∃ q, PCoverage q ∈ (check_sample Ss results objective j sample).1.
Proof.
  destruct (energies results !! j) as [e|] eqn:He; cycle 1.
  { unfold check_sample, list_getitem. by rewrite He. }
  destruct (counts results !! j) as [c|] eqn:Hc; cycle 1.
  { unfold check_sample, list_getitem. by rewrite He, Hc. }
  rewrite (check_sample_cases Ss results objective j sample e c He Hc).
  cbv zeta.
  destruct (match objective with Some _ => _ | None => _ end) as [ol|err];
    [|done].
  destruct (select_loop 0 Ss sample (∅, [])) as [o [st|err]]; cbn [fst snd];
    [|done].
  destruct (coverage st.1 (X Ss)) as [pct|err]; cbn [fst snd]; [|done].
  intros _. exists pct.
  repeat rewrite ?elem_of_app, ?elem_of_cons. auto 10.
Qed.

Lemma no_verdict Ss results objective j sample :
  (length sample < length Ss ∨ X Ss = ∅) →
  (∃ err, (check_sample Ss results objective j sample).2 = Raise err) ∧
  ∀ ln, ln ∈ (check_sample Ss results objective j sample).1 →
    (∀ q, ln ≠ PCoverage q) ∧ (∀ f, ln ≠ PPartitionFound f).
Proof.
  intros Hbad.
  assert (Hno : ∀ ln, ln ∈ (check_sample Ss results objective j sample).1 →
                  ¬ ((∃ q, ln = PCoverage q) ∨ (∃ f, ln = PPartitionFound f))).
  { intros ln Hin Hkind.
    destruct (check_sample_verdict Ss results objective j sample ln Hin Hkind)
      as (_ & Hlen & Hsize & _).
    destruct Hbad as [Hshort | HX]; [lia|].
    rewrite HX, size_empty in Hsize. done. }
  split.
  - destruct (check_sample Ss results objective j sample).2 as [[]|err] eqn:Hr;
      [|by eauto].
    apply check_sample_Return in Hr as [q Hq]. destruct (Hno _ Hq). eauto.
  - intros ln Hin. specialize (Hno ln Hin). split; intros ? ->; apply Hno; eauto.
Qed.

(** X8.  Every coverage figure that [check_result] prints for a sample is
    [100 * |covered| / |X|], where the covered elements are those of the
    selected sets, and lies between 0 and 100, whatever the response holds. *)
Theorem coverage_within_bounds Ss results objective j sample q :
  PCoverage q ∈ (check_sample Ss results objective j sample).1 →
  (q == Z.of_nat (100 * size (⋃ picked 1%Z Ss sample))
        # Pos.of_nat (size (X Ss)))%Q ∧
  (0 <= q)%Q ∧ (q <= 100)%Q.
Proof.
  intros Hin.
  destruct (check_sample_verdict Ss results objective j sample _ Hin)
    as (_ & Hlen & Hsize & Hq); [by eauto|].
  destruct Hq as [[= ->]|?]; [|done].
  pose proof (subseteq_size _ _ (picked_subseteq 1%Z Ss sample)) as Hle.
  assert (Hpos : Z.pos (Pos.of_nat (size (X Ss))) = Z.of_nat (size (X Ss))).
  { rewrite <- positive_nat_Z, Nat2Pos.id; done. }
  split; [apply Qred_correct|]. rewrite !Qred_correct.
  unfold Qle. simpl Qnum. simpl Qden. rewrite Hpos. split; lia.
Qed.

(** X9.  A sample with fewer entries than there are sets gets no verdict:
    [check_result] raises on it and prints neither its coverage nor its
    partition line. *)
Theorem short_sample_gets_no_verdict Ss results objective j sample :
  length sample < length Ss →
  (∃ err, (check_sample Ss results objective j sample).2 = Raise err) ∧
  (∀ ln, ln ∈ (check_sample Ss results objective j sample).1 →
     (∀ q, ln ≠ PCoverage q) ∧ (∀ f, ln ≠ PPartitionFound f)) ∧
  (is_Some (energies results !! j) → is_Some (counts results !! j) →
   objective = None →
   (check_sample Ss results objective j sample).2 = Raise IndexError).
Proof.
  intros Hshort.
  destruct (no_verdict Ss results objective j sample (or_introl Hshort))
    as [Herr Hno].
  split; [done|]. split; [done|].
  intros [e He] [c Hc] ->.
  rewrite (check_sample_cases Ss results None j sample e c He Hc). cbv zeta.
  rewrite (select_loop_short 0 Ss sample) by (simpl; lia). done.
Qed.

(** X10.  With an empty universe [check_result] cannot report: whatever the
    sample, the pass raises and prints neither coverage nor partition line;
    when everything up to the coverage line goes through, the error is the
    division by [len(X) = 0]. *)
Theorem empty_universe_gets_no_verdict Ss results objective j sample :
  X Ss = ∅ →
  (∃ err, (check_sample Ss results objective j sample).2 = Raise err) ∧
  (∀ ln, ln ∈ (check_sample Ss results objective j sample).1 →
     (∀ q, ln ≠ PCoverage q) ∧ (∀ f, ln ≠ PPartitionFound f)) ∧
  (is_Some (energies results !! j) → is_Some (counts results !! j) →
   objective = None → length Ss ≤ length sample →
   (check_sample Ss results objective j sample).2 = Raise ZeroDivisionError).
Proof.
  intros HX.
  destruct (no_verdict Ss results objective j sample (or_intror HX))
    as [Herr Hno].
  split; [done|]. split; [done|].
  intros [e He] [c Hc] -> Hlen.
  rewrite (check_sample_cases Ss results None j sample e c He Hc). cbv zeta.
  destruct (select_loop_spec 0 Ss sample (∅, [])) as (o & -> & _); [simpl; lia|].
  cbn [fst snd]. unfold coverage. rewrite HX, size_empty. done.
Qed.

(** X11.  The coverage line alone: whenever a coverage figure is printed for
    a sample, it is 100 exactly when every element of [X] lies in some
    selected set. *)
Theorem coverage_full_iff_covering Ss results objective j sample q :
  PCoverage q ∈ (check_sample Ss results objective j sample).1 →
  q = 100%Q ↔
  ∀ x, x ∈ X Ss → ∃ i, selected 1%Z sample i ∧ covers Ss x i.
Proof.
  intros Hin.
  destruct (check_sample_verdict Ss results objective j sample _ Hin)
    as (_ & Hlen & Hsize & Hq); [by eauto|].
  destruct Hq as [Hq|?]; [|done].
  assert (q = Qred (Z.of_nat (100 * size (⋃ picked 1%Z Ss sample))
                    # Pos.of_nat (size (X Ss)))) as -> by congruence.
  rewrite coverage_full by done.
  pose proof (picked_subseteq 1%Z Ss sample) as Hsub. split.
  - intros Hsz x Hx.
    assert (Heq : ⋃ picked 1%Z Ss sample = X Ss)
      by (apply set_subseteq_size_eq; [done|lia]).
    rewrite <- Heq in Hx. by apply multiplicity_pos, picked_pos in Hx.
  - intros Hall. f_equal. apply set_eq. intros x. split; [apply Hsub|].
    intros Hx. apply multiplicity_pos, picked_pos. by apply Hall.
Qed.
End interpreter_edges.

Section interpreter_composition.
Import SetPartition.
Context `{Countable K}.
Implicit Types (Ss : list (gset K)) (sample : list Z).

(** X12.  Passing an objective only adds its line: for a sample whose energy
    and count are there and an objective matrix that fits the sample, the
    block printed with the objective is the block printed without it, with
    the objective value inserted as third line, and the outcome is the same. *)
Theorem objective_only_adds_a_line Ss results obj j sample :
  is_Some (energies results !! j) → is_Some (counts results !! j) →
  rect (length sample) (length sample) obj →
  ∃ v, objective_value obj sample = Return v ∧
    (check_sample Ss results (Some obj) j sample).1 =
      take 2 (check_sample Ss results None j sample).1 ++ PObjective v ::
      drop 2 (check_sample Ss results None j sample).1 ∧
    (check_sample Ss results (Some obj) j sample).2 =
      (check_sample Ss results None j sample).2.
Proof.
  intros [e He] [c Hc] Hrect.
  assert (Hv : objective_value obj sample =
               Return (dot (vecmat (IZR <$> sample) obj) (IZR <$> sample))).
  { unfold objective_value. rewrite length_fmap. by rewrite decide_True. }
  eexists. split; [exact Hv|].
  rewrite !(check_sample_cases Ss results _ j sample e c He Hc). cbv zeta.
  rewrite Hv. simpl.
  destruct (select_loop 0 Ss sample (∅, [])) as [o [st|err]]; cbn [fst snd];
    [|done].
  by destruct (coverage st.1 (X Ss)).
Qed.

Lemma select_loop_ext i Ss sample sample' st :
  i + length Ss ≤ length sample → i + length Ss ≤ length sample' →
  (∀ k, i ≤ k < i + length Ss →
     sample !! k = Some 1%Z ↔ sample' !! k = Some 1%Z) →
  select_loop i Ss sample st = select_loop i Ss sample' st.
Proof.
  revert i st. induction Ss as [|S_i Ss IH]; intros i st Hl Hl' Hsame; [done|].
  simpl in Hl, Hl'.
  destruct (lookup_lt_is_Some_2 sample i) as [v Hv]; [lia|].
  destruct (lookup_lt_is_Some_2 sample' i) as [v' Hv']; [lia|].
  cbn [select_loop]. unfold list_getitem. rewrite Hv, Hv', !eff_bind_lift_Return.
  assert (Hiff : v = 1%Z ↔ v' = 1%Z).
  { pose proof (Hsame i ltac:(simpl; lia)) as Hi. rewrite Hv, Hv' in Hi.
    split; intros ->.
    - by assert (Some v' = Some 1%Z) as [= ->] by (by apply Hi).
    - by assert (Some v = Some 1%Z) as [= ->] by (by apply Hi). }
  assert (Hrec : ∀ st', select_loop (S i) Ss sample st' =
                        select_loop (S i) Ss sample' st').
  { intros st'. apply IH; [lia..|]. intros k Hk. apply Hsame. simpl. lia. }
  destruct (decide (v = 1%Z)) as [H1|H1], (decide (v' = 1%Z)) as [H1'|H1'];
    try tauto.
  - unfold emit, mret, eff_mret, eff_ret, mbind, eff_mbind, eff_bind.
    by rewrite Hrec.
  - rewrite !eff_bind_mret. apply Hrec.
Qed.

(** X13.  Only the positions that hold a 1 matter: two samples with at least
    one entry per set that hold a 1 at the same indices below [len(S)] get
    the same printed block and outcome (without objective).  Entries other
    than 1 count as not selected and entries beyond [len(S)] are ignored. *)
Theorem verdict_depends_on_ones Ss results j sample sample' :
  length Ss ≤ length sample → length Ss ≤ length sample' →
  (∀ i, i < length Ss → sample !! i = Some 1%Z ↔ sample' !! i = Some 1%Z) →
  check_sample Ss results None j sample = check_sample Ss results None j sample'.
Proof.
  intros Hl Hl' Hsame. unfold check_sample.
  rewrite (select_loop_ext 0 Ss sample sample'); [done|simpl; lia..|].
  intros k Hk. apply Hsame. simpl in Hk. lia.
Qed.

Lemma check_loop_stops Ss results objective j before sample rest err :
  (∀ k s, before !! k = Some s →
     (check_sample Ss results objective (j + k) s).2 = Return tt) →
  (check_sample Ss results objective (j + length before) sample).2 = Raise err →
  check_loop Ss results objective j (before ++ sample :: rest) =
    (concat (imap (λ k s, (check_sample Ss results objective (j + k) s).1) before)
     ++ (check_sample Ss results objective (j + length before) sample).1,
     Raise err).
Proof.
  revert j. induction before as [|s0 before IH]; intros j Hok Herr.
  - simpl in *. rewrite Nat.add_0_r in *.
    destruct (check_sample Ss results objective j sample) as [o r].
    simpl in *. by subst r.
  - pose proof (Hok 0 s0 eq_refl) as H0. rewrite Nat.add_0_r in H0.
    cbn [app check_loop imap concat length].
    rewrite (IH (S j)).
    + rewrite Nat.add_0_r.
      destruct (check_sample Ss results objective j s0) as [o r].
      simpl in H0. subst r. simpl.
      rewrite <- app_assoc, Nat.add_succ_r. do 4 f_equal.
      apply imap_ext. intros k s _. simpl. by rewrite Nat.add_succ_r.
    + intros k s Hk. rewrite Nat.add_succ_l, <- Nat.add_succ_r. by apply Hok.
    + by rewrite Nat.add_succ_l, <- Nat.add_succ_r.
Qed.

(** X14.  [check_result] stops at the first sample that fails: the blocks of
    the samples before it are printed in full, then what the failing pass
    printed, and its error is the outcome; later samples are not looked at. *)
Theorem check_result_stops_at_first_failure Ss results objective
    before sample rest err :
  samples results = before ++ sample :: rest →
  (∀ k s, before !! k = Some s →
     (check_sample Ss results objective k s).2 = Return tt) →
  (check_sample Ss results objective (length before) sample).2 = Raise err →
  check_result Ss results objective =
    (concat (imap (λ k s, (check_sample Ss results objective k s).1) before)
     ++ (check_sample Ss results objective (length before) sample).1,
     Raise err).
Proof.
  intros Hs Hok Herr. unfold check_result. rewrite Hs.
  by apply (check_loop_stops Ss results objective 0).
Qed.

(** X15.  The selection loop: for a sample with at least one entry per set it
    prints the indices [i < len(S)] with [sample[i] == 1] in increasing
    order, collects in [testX] exactly the elements of the selected sets and
    in [members] the members of the selected sets one set after the other. *)
Theorem select_loop_selects Ss sample :
  length Ss ≤ length sample →
  ∃ testX members,
    select_loop 0 Ss sample (∅, []) =
      (PSet <$> filter (λ i, sample !! i = Some 1%Z) (seq 0 (length Ss)),
       Return (testX, members)) ∧
    (∀ x, x ∈ testX ↔ ∃ i, selected 1%Z sample i ∧ covers Ss x i) ∧
    members = concat (elements <$> picked 1%Z Ss sample).
Proof.
  intros Hlen.
  destruct (select_loop_spec 0 Ss sample (∅, [])) as (o & Ho & _); [simpl; lia|].
  pose proof (select_loop_indices 0 Ss sample (∅, []) ltac:(simpl; lia)) as Hidx.
  rewrite Ho in Hidx. simpl in Hidx. subst o. rewrite drop_0 in Ho.
  eexists _, _. split; [exact Ho|]. split; [|done].
  intros x. cbn [fst]. rewrite (left_id_L ∅ (∪)).
  by rewrite <- multiplicity_pos, picked_pos.
Qed.
End interpreter_composition.

Section interpreter_edge_examples.
Import SetPartition.

Lemma coverage_within_bounds_witness :
  (50 == Z.of_nat (100 * size (⋃ picked 1%Z S_data [1; 0; 0; 0; 0; 0; 0; 0; 1]%Z))
         # Pos.of_nat (size (X S_data)))%Q ∧
  (0 <= 50)%Q ∧ (50 <= 100)%Q.
Proof.
  apply (coverage_within_bounds S_data response_data None 0
           [1; 0; 0; 0; 0; 0; 0; 0; 1]%Z 50).
  rewrite check_sample_overlap. apply list_elem_of_In. simpl. tauto.
Defined.

Lemma short_sample_gets_no_verdict_witness :
  (∃ err, (check_sample S_data response_data None 0 [0; 1]%Z).2 = Raise err) ∧
  (∀ ln, ln ∈ (check_sample S_data response_data None 0 [0; 1]%Z).1 →
     (∀ q, ln ≠ PCoverage q) ∧ (∀ f, ln ≠ PPartitionFound f)) ∧
  (is_Some (energies response_data !! 0%nat) →
   is_Some (counts response_data !! 0%nat) →
   (None : option (list (list R))) = None →
   (check_sample S_data response_data None 0 [0; 1]%Z).2 = Raise IndexError).
Proof.
  apply (short_sample_gets_no_verdict S_data response_data None 0 [0; 1]%Z).
  simpl. lia.
Defined.

Lemma empty_universe_gets_no_verdict_witness :
  ∃ err,
    (check_sample ([∅] : list (gset string)) response_data None 0 [1]%Z).2 =
    Raise err.
Proof.
  apply (empty_universe_gets_no_verdict ([∅] : list (gset string))
           response_data None 0 [1]%Z).
  reflexivity.
Defined.

Lemma coverage_full_iff_covering_witness :
  (100%Q : QArith_base.Q) = 100%Q ↔
  ∀ x, x ∈ X S_data →
    ∃ i, selected 1%Z [0; 0; 1; 0; 0; 0; 1; 1; 0]%Z i ∧ covers S_data x i.
Proof.
  apply (coverage_full_iff_covering S_data response_data None 0
           [0; 0; 1; 0; 0; 0; 1; 1; 0]%Z 100).
  rewrite check_sample_data_0. apply list_elem_of_In. simpl. tauto.
Defined.

Lemma objective_only_adds_a_line_witness :
  ∃ v,
    objective_value (diag [5; 29; 72; 2; 21; 5; 30; 66; 31]%R)
      [1; 1; 0; 0; 0; 0; 0; 0; 0]%Z = Return v ∧
    (check_sample S_data response_data
       (Some (diag [5; 29; 72; 2; 21; 5; 30; 66; 31]%R)) 2
       [1; 1; 0; 0; 0; 0; 0; 0; 0]%Z).1 =
      take 2 (check_sample S_data response_data None 2
                [1; 1; 0; 0; 0; 0; 0; 0; 0]%Z).1 ++ PObjective v ::
      drop 2 (check_sample S_data response_data None 2
                [1; 1; 0; 0; 0; 0; 0; 0; 0]%Z).1 ∧
    (check_sample S_data response_data
       (Some (diag [5; 29; 72; 2; 21; 5; 30; 66; 31]%R)) 2
       [1; 1; 0; 0; 0; 0; 0; 0; 0]%Z).2 =
      (check_sample S_data response_data None 2
         [1; 1; 0; 0; 0; 0; 0; 0; 0]%Z).2.
Proof.
  apply (objective_only_adds_a_line S_data response_data
           (diag [5; 29; 72; 2; 21; 5; 30; 66; 31]%R) 2
           [1; 1; 0; 0; 0; 0; 0; 0; 0]%Z).
  - by eexists.
  - by eexists.
  - apply (rect_diag [5; 29; 72; 2; 21; 5; 30; 66; 31]%R).
Defined.

(** A 2 is no selection, and a tenth entry is not looked at. *)
Lemma verdict_depends_on_ones_witness :
  check_sample S_data response_data None 0 [2; 1; 0; 0; 0; 0; 0; 0; 0; 1]%Z =
  check_sample S_data response_data None 0 [0; 1; 0; 0; 0; 0; 0; 0; 0]%Z.
Proof.
  apply (verdict_depends_on_ones S_data response_data 0).
  - simpl. lia.
  - simpl. lia.
  - intros i Hi.
    do 9 (destruct i as [|i]; [simpl; split; congruence|]).
    simpl in Hi. lia.
Defined.

(** With one energy for three samples the second pass fails on
    [energies[1]], after the first block. *)
Lemma check_result_stops_at_first_failure_witness :
  let results := {| samples := samples response_data; energies := [(-6)%R];
                    counts := counts response_data |} in
  check_result S_data results None =
  (concat (imap (λ k s, (check_sample S_data results None k s).1)
             [[0; 0; 1; 0; 0; 0; 1; 1; 0]%Z]) ++
   (check_sample S_data results None 1 [0; 0; 1; 1; 1; 0; 0; 0; 0]%Z).1,
   Raise IndexError).
Proof.
  apply (check_result_stops_at_first_failure S_data _ None
           [[0; 0; 1; 0; 0; 0; 1; 1; 0]%Z] [0; 0; 1; 1; 1; 0; 0; 0; 0]%Z
           [[1; 1; 0; 0; 0; 0; 0; 0; 0]%Z] IndexError).
  - reflexivity.
  - intros [|k] s Hk; [|done]. injection Hk as <-. by vm_compute.
  - reflexivity.
Defined.

Lemma select_loop_selects_witness :
  ∃ testX members,
    select_loop 0 S_data [0; 0; 1; 0; 0; 0; 1; 1; 0]%Z (∅, []) =
      (PSet <$> filter (λ i, [0; 0; 1; 0; 0; 0; 1; 1; 0]%Z !! i = Some 1%Z)
                  (seq 0 (length S_data)),
       Return (testX, members)) ∧
    (∀ x, x ∈ testX ↔
       ∃ i, selected 1%Z [0; 0; 1; 0; 0; 0; 1; 1; 0]%Z i ∧ covers S_data x i) ∧
    members = concat (elements <$> picked 1%Z S_data [0; 0; 1; 0; 0; 0; 1; 1; 0]%Z).
Proof.
  apply (select_loop_selects S_data [0; 0; 1; 0; 0; 0; 1; 1; 0]%Z).
  simpl. lia.
Defined.
End interpreter_edge_examples.

(** ** The client adapter and the reader on failures *)

Section adapter_edges.
Import Qudit.
Implicit Types (C : list R) (M : list (list R)) (client : QciClient).

(** X16.  The Hamiltonian data can be taken apart again: [hstack_col] fails
    with [ValueError] exactly when [J] does not have one row per entry of
    [C]; otherwise the first column of [H] is [C] and the remaining columns
    are [J]. *)
Theorem hstack_col_round_trip C M :
  (length M ≠ length C ↔ hstack_col C M = Raise ValueError) ∧
  (∀ H, hstack_col C M = Return H →
     length H = length C ∧ (λ row, nth 0 row 0%R) <$> H = C ∧ tail <$> H = M).
Proof.
  unfold hstack_col. case_decide as Hlen.
  - split; [split; [done|by intros ?]|]. intros H [= <-]. revert M Hlen.
    induction C as [|c C IH]; intros [|r M] Hlen; try done.
    simpl in Hlen. destruct (IH M ltac:(lia)) as (Hl & Hhd & Htl).
    cbn [zip_with]. rewrite !fmap_cons, Hhd, Htl. cbn [length]. by rewrite Hl.
  - split; [done|]. by intros H ?.
Qed.

(** X17.  [sample_hamiltonian] makes no call at all when the shapes do not
    fit: with a [J] that does not have one row per entry of [C] it raises
    [ValueError] before the upload. *)
Theorem sample_hamiltonian_shape_mismatch C M sum_constraint schedule
    solution_precision client :
  length M ≠ length C →
  sample_hamiltonian C M sum_constraint schedule solution_precision client =
    ([], Raise ValueError).
Proof.
  intros Hlen. unfold sample_hamiltonian, hstack_col.
  by rewrite decide_False.
Qed.

(** X18.  [sample_hamiltonian] stops at the first step that fails and passes
    its error on: a failed upload, or an upload answer without ["file_id"],
    ends after the one call, so no job is built or processed; a failed
    [build_job_body] ends after two calls, so no job is processed. *)
Theorem sample_hamiltonian_stops_on_failure C M sum_constraint schedule
    solution_precision client :
  length M = length C →
  let file := {| file_name := "qudit-tutorial-hame";
                 hamiltonian_data := zip_with cons C M |} in
  let run := sample_hamiltonian C M sum_constraint schedule solution_precision
               client in
  (∀ err, upload_file client file = Raise err →
          run = ([CallUpload file], Raise err)) ∧
  (∀ uploaded err,
     upload_file client file = Return uploaded →
     py_getitem uploaded "file_id" = Raise err →
     run = ([CallUpload file], Raise err)) ∧
  (∀ d, upload_file client file = Return (JDict d) → d !! "file_id" = None →
        run = ([CallUpload file], Raise (KeyError "file_id"))) ∧
  (∀ uploaded file_id err,
     upload_file client file = Return uploaded →
     py_getitem uploaded "file_id" = Return file_id →
     let args :=
       {| b_job_type := "sample-hamiltonian";
          b_hamiltonian_file_id := file_id;
          b_job_params :=
            {| p_sampler_type := "dirac-3";
               p_nsamples := 1;
               p_solution_precision := solution_precision;
               p_sum_constraint := sum_constraint;
               p_relaxation_schedule := schedule |};
          b_job_tags := ["qudit-tutorial"] |} in
     build_job_body client args = Raise err →
     run = ([CallUpload file; CallBuild args], Raise err)).
Proof.
  intros Hlen. cbv zeta. unfold sample_hamiltonian, hstack_col.
  rewrite decide_True by done. simpl. repeat split.
  - by intros err ->.
  - intros uploaded err -> Hid. simpl. by rewrite Hid.
  - intros d -> Hd. simpl. by rewrite Hd.
  - intros uploaded file_id err -> Hid Hb. simpl. rewrite Hid. simpl.
    by rewrite Hb.
Qed.
End adapter_edges.

Section reader_edges.
Import Qudit.
Implicit Types (d r fc : gmap string json).

Lemma get_results_non_dict response :
  (∀ d, response ≠ JDict d) → ∀ v, get_results response ≠ Return v.
Proof.
  intros Hnd v. unfold get_results, in_and.
  destruct response as [| | | | s | l | d]; simpl; try done.
  - destruct (is_substring "results" s); simpl; [done|].
    destruct (is_substring "job_info" s); simpl; done.
  - destruct (existsb (is_str "results") l); simpl; [done|].
    destruct (existsb (is_str "job_info") l); simpl; done.
  - by destruct (Hnd d).
Qed.

(** X19.  When [get_results] returns: it returns [v] exactly when the
    response is a dictionary whose ["results"] entry is a dictionary whose
    ["file_config"] entry is a dictionary with the single value [v].  Every
    other response makes it raise. *)
Theorem get_results_returns_iff response v :
  get_results response = Return v ↔
  ∃ d r fc k, response = JDict d ∧ d !! "results" = Some (JDict r) ∧
              r !! "file_config" = Some (JDict fc) ∧ fc = {[k := v]}.
Proof.
  split.
  - intros Hret.
    destruct response as [| | | | s | l | d];
      try (by apply get_results_non_dict in Hret).
    destruct (d !! "results") as [res|] eqn:Hres; cycle 1.
    { destruct (get_results_missing d (or_introl Hres)) as [[e He] _].
      by rewrite He in Hret. }
    assert (res = JNull ∨ res ≠ JNull) as [->|Hnn] by (destruct res; auto).
    { destruct (get_results_missing d (or_intror Hres)) as [[e He] _].
      by rewrite He in Hret. }
    rewrite (get_results_present d res Hres Hnn) in Hret.
    destruct res as [| | | | | |r]; try done. cbn [py_getitem mbind result_bind] in Hret.
    destruct (r !! "file_config") as [c|] eqn:Hc; [|done].
    destruct c as [| | | | s | l | fc]; try done.
    + cbn [py_len py_values mbind result_bind] in Hret. by case_decide.
    + cbn [py_len py_values mbind result_bind] in Hret. by case_decide.
    + cbn [py_len py_values mbind result_bind] in Hret.
      rewrite <- length_map_to_list in Hret.
      destruct (map_to_list fc) as [|[k v'] [|kv l]] eqn:Hl; try done.
      simpl in Hret. injection Hret as ->.
      exists d, r, fc, k. repeat split; try done.
      rewrite <- (list_to_map_to_list fc), Hl. simpl.
      by rewrite insert_empty.
  - intros (d & r & fc & k & -> & Hres & Hfc & ->).
    rewrite (get_results_config d r _ Hres Hfc).
    by rewrite map_to_list_singleton.
Qed.

(** X20.  Results that are there but malformed: when ["results"] is neither
    absent nor [None], [get_results] raises [TypeError] if it is not a
    dictionary, [KeyError] if it has no ["file_config"], and for a
    ["file_config"] that is a list it raises [AttributeError] for one element
    and the [AssertionError] otherwise. *)
Theorem get_results_malformed_results d res :
  d !! "results" = Some res → res ≠ JNull →
  ((∀ r, res ≠ JDict r) → get_results (JDict d) = Raise TypeError) ∧
  (∀ r, res = JDict r → r !! "file_config" = None →
        get_results (JDict d) = Raise (KeyError "file_config")) ∧
  (∀ r l, res = JDict r → r !! "file_config" = Some (JList l) →
          get_results (JDict d) =
            Raise (if decide (length l = 1) then AttributeError
                   else AssertionError "Unknown results format")).
Proof.
  intros Hres Hnn. rewrite (get_results_present d res Hres Hnn). repeat split.
  - intros Hnd. destruct res; try done. by destruct (Hnd d0).
  - intros r -> Hfc. simpl. by rewrite Hfc.
  - intros r l -> Hfc. simpl. rewrite Hfc. simpl. by case_decide.
Qed.

(** X21.  Called on what [sample_hamiltonian] returns: when the three client
    calls go through and the response is a dictionary, a response with a
    single-entry results record gives that entry, and a response without
    results (and with [job_info] absent or a dictionary) gives the
    [RuntimeError] carrying the job result. *)
Theorem get_results_of_sample_hamiltonian C M sum_constraint schedule
    solution_precision client uploaded file_id job_body d :
  length M = length C →
  let file := {| file_name := "qudit-tutorial-hame";
                 hamiltonian_data := zip_with cons C M |} in
  let args :=
    {| b_job_type := "sample-hamiltonian";
       b_hamiltonian_file_id := file_id;
       b_job_params :=
         {| p_sampler_type := "dirac-3";
            p_nsamples := 1;
            p_solution_precision := solution_precision;
            p_sum_constraint := sum_constraint;
            p_relaxation_schedule := schedule |};
       b_job_tags := ["qudit-tutorial"] |} in
  let pargs := {| pr_job_type := "sample-hamiltonian";
                  pr_job_body := job_body;
                  pr_wait := true |} in
  upload_file client file = Return uploaded →
  py_getitem uploaded "file_id" = Return file_id →
  build_job_body client args = Return job_body →
  process_job client pargs = Return (JDict d) →
  let outcome :=
    (sample_hamiltonian C M sum_constraint schedule solution_precision
       client).2 ≫= get_results in
  (∀ r k v, d !! "results" = Some (JDict r) →
            r !! "file_config" = Some (JDict {[k := v]}) →
            outcome = Return v) ∧
  (d !! "results" = None → d !! "job_info" = None →
   outcome = Raise (RuntimeError JNull)) ∧
  (∀ ji, d !! "results" = None → d !! "job_info" = Some (JDict ji) →
         outcome = Raise (RuntimeError (default JNull (ji !! "job_result")))).
Proof.
  intros Hlen. cbv zeta. intros Hup Hid Hbuild Hproc.
  assert (Hrun : (sample_hamiltonian C M sum_constraint schedule
                    solution_precision client).2 = Return (JDict d)).
  { unfold sample_hamiltonian, hstack_col. rewrite decide_True by done.
    simpl. rewrite Hup. simpl. rewrite Hid. simpl. rewrite Hbuild. simpl.
    by rewrite Hproc. }
  rewrite Hrun. cbn [mbind result_bind]. repeat split.
  - intros r k v Hres Hfc. rewrite (get_results_config d r _ Hres Hfc).
    by rewrite map_to_list_singleton.
  - intros Hres Hji. by apply get_results_missing; [left|].
  - intros ji Hres Hji. by apply get_results_missing; [left|].
Qed.
End reader_edges.

Section adapter_edge_examples.
Import Qudit.

Lemma sample_hamiltonian_shape_mismatch_witness :
  sample_hamiltonian h_example [[0; 1; 1]; [1; 0; 1]]%R 400 1 (1 / 10)
    stub_client = ([], Raise ValueError).
Proof.
  apply (sample_hamiltonian_shape_mismatch h_example [[0; 1; 1]; [1; 0; 1]]%R).
  simpl. lia.
Defined.

Lemma sample_hamiltonian_stops_on_failure_witness :
  sample_hamiltonian h_example J_example 400 1 (1 / 10) offline_client =
    ([CallUpload {| file_name := "qudit-tutorial-hame";
                    hamiltonian_data := zip_with cons h_example J_example |}],
     Raise (ClientError "offline")).
Proof.
  exact (proj1 (sample_hamiltonian_stops_on_failure h_example J_example 400 1
                  (1 / 10) offline_client eq_refl) _ eq_refl).
Defined.

Lemma get_results_malformed_results_witness :
  get_results (JDict {["results" := JStr "pending"]}) = Raise TypeError.
Proof.
  assert (Hres : ({["results" := JStr "pending"]} : gmap string json)
                  !! "results" = Some (JStr "pending")) by (by vm_compute).
  apply (proj1 (get_results_malformed_results {["results" := JStr "pending"]}
                  (JStr "pending") Hres ltac:(discriminate))).
  intros r. discriminate.
Defined.

Lemma get_results_of_sample_hamiltonian_witness :
  (sample_hamiltonian h_example J_example 400 1 (1 / 10) stub_client).2
    ≫= get_results = Return results_example.
Proof.
  refine (proj1 (get_results_of_sample_hamiltonian h_example J_example 400 1
                   (1 / 10) stub_client _ _ _ _ eq_refl eq_refl eq_refl
                   eq_refl eq_refl) _ _ _ eq_refl eq_refl).
Defined.
End adapter_edge_examples.

(** ** The three Hamiltonians of the qudit notebook *)

Section hamiltonian_examples.
Import Qudit Demos.
Local Open Scope R_scope.

Lemma rect_3 (a b c d e f g h i : R) :
  rect 3 3 [[a; b; c]; [d; e; f]; [g; h; i]].
Proof. split; [done|]. by repeat constructor. Qed.

Lemma value_first x1 x2 x3 :
  solution_value h_example J_example [x1; x2; x3] =
  Return (- x1 + 2 * (x1 * x2 + x1 * x3 + x2 * x3)).
Proof.
  unfold solution_value. rewrite decide_True by (split; [done|apply rect_3]).
  f_equal. unfold quad_form, vecmat, matvec, transpose. simpl. ring.
Qed.

Lemma value_degenerate x1 x2 x3 :
  solution_value h_degenerate J_example [x1; x2; x3] =
  Return (- (x1 + x2 + x3) + 2 * (x1 * x2 + x1 * x3 + x2 * x3)).
Proof.
  unfold solution_value. rewrite decide_True by (split; [done|apply rect_3]).
  f_equal. unfold quad_form, vecmat, matvec, transpose. simpl. ring.
Qed.

Lemma value_poly x1 x2 x3 :
  solution_value h_poly J_poly [x1; x2; x3] =
  Return (- 5 * x1 * x3 - 4 * x2 * x2 - 10 * x1 - 10 * x3).
Proof.
  unfold solution_value. rewrite decide_True by (split; [done|apply rect_3]).
  f_equal. unfold quad_form, vecmat, matvec, transpose. simpl. field.
Qed.

Lemma feasible_3 total x :
  feasible total x → length x = 3%nat →
  ∃ x1 x2 x3, x = [x1; x2; x3] ∧ 0 <= x1 ∧ 0 <= x2 ∧ 0 <= x3 ∧
              x1 + x2 + x3 = total.
Proof.
  intros [Hpos Hsum] Hlen.
  destruct x as [|x1 [|x2 [|x3 [|]]]]; try done.
  apply Forall_cons in Hpos as [H1 Hpos]. apply Forall_cons in Hpos as [H2 Hpos].
  apply Forall_cons in Hpos as [H3 _]. simpl in Hsum.
  exists x1, x2, x3. repeat split; try done. lra.
Qed.

(** X22.  The "known ground state" of the first example: over the qudit
    domain (entries at least 0 that add up to the summation constraint) the
    value [h.T@x + x.T@J@x] is never below minus the constraint, and it
    equals that exactly at [x = [total, 0, 0]]; for the constraint 400 this
    is the printed [-400]. *)
Theorem first_example_ground_state total x :
  feasible total x → length x = 3%nat →
  ∃ v, solution_value h_example J_example x = Return v ∧
       - total <= v ∧ (v = - total ↔ x = [total; 0; 0]).
Proof.
  intros Hf Hlen.
  destruct (feasible_3 total x Hf Hlen) as (x1 & x2 & x3 & -> & H1 & H2 & H3 & Hs).
  eexists. split; [apply value_first|].
  assert (0 <= x1 * x2 ∧ 0 <= x1 * x3 ∧ 0 <= x2 * x3) as (H12 & H13 & H23)
    by (repeat split; by apply Rmult_le_pos).
  split; [lra|]. split.
  - intros Hv. assert (x2 = 0 ∧ x3 = 0) as [-> ->] by (split; lra).
    f_equal. lra.
  - intros [= -> -> ->]. lra.
Qed.

(** X23.  The degenerate example: over the qudit domain the value is never
    below minus the summation constraint, and it equals that exactly at the
    three solutions [[total, 0, 0]], [[0, total, 0]] and [[0, 0, total]],
    which therefore all have the same value. *)
Theorem degenerate_example_ground_states total x :
  feasible total x → length x = 3%nat →
  ∃ v, solution_value h_degenerate J_example x = Return v ∧
       - total <= v ∧
       (v = - total ↔
        x = [total; 0; 0] ∨ x = [0; total; 0] ∨ x = [0; 0; total]).
Proof.
  intros Hf Hlen.
  destruct (feasible_3 total x Hf Hlen) as (x1 & x2 & x3 & -> & H1 & H2 & H3 & Hs).
  eexists. split; [apply value_degenerate|].
  assert (0 <= x1 * x2 ∧ 0 <= x1 * x3 ∧ 0 <= x2 * x3) as (H12 & H13 & H23)
    by (repeat split; by apply Rmult_le_pos).
  split; [lra|]. split.
  - intros Hv.
    assert (x1 * x2 = 0 ∧ x1 * x3 = 0 ∧ x2 * x3 = 0) as (E12 & E13 & E23)
      by (repeat split; lra).
    apply Rmult_integral in E12, E13, E23.
    destruct (Req_dec x1 0) as [Hx1|Hx1].
    + destruct E23 as [Hx2|Hx3].
      * right; right. vec_eq.
      * right; left. vec_eq.
    + assert (x2 = 0) by tauto. assert (x3 = 0) by tauto. left. vec_eq.
  - intros [[= -> -> ->] | [[= -> -> ->] | [= -> -> ->]]]; lra.
Qed.

(** X24.  The second example: [h] and [J] encode
    [H(x) = -5 x1 x3 - 4 x2^2 - 10 x1 - 10 x3].  Over the qudit domain, for a
    summation constraint of at least 40/11 the minimum is [-4 total^2], taken
    at [[0, total, 0]]; for a smaller constraint it is
    [-(5/4) total^2 - 10 total], taken at [[total/2, 0, total/2]]. *)
Theorem poly_example_minimum total x :
  feasible total x → length x = 3%nat →
  ∃ v, solution_value h_poly J_poly x = Return v ∧
    (40 <= 11 * total →
     - 4 * total * total <= v ∧
     solution_value h_poly J_poly [0; total; 0] = Return (- 4 * total * total)) ∧
    (11 * total <= 40 →
     - (5 / 4) * total * total - 10 * total <= v ∧
     solution_value h_poly J_poly [total / 2; 0; total / 2] =
       Return (- (5 / 4) * total * total - 10 * total)).
Proof.
  intros Hf Hlen.
  destruct (feasible_3 total x Hf Hlen) as (x1 & x2 & x3 & -> & H1 & H2 & H3 & Hs).
  eexists. split; [apply value_poly|].
  pose proof (Rle_0_sqr (x1 - x3)) as Hsq. unfold Rsqr in Hsq.
  split.
  - intros Hbig. split; [|rewrite value_poly; f_equal; ring].
    assert (Ht : 0 <= (x1 + x3) * (11 * total - 40)) by (apply Rmult_le_pos; lra).
    assert (Hx : 0 <= (x1 + x3) * x2) by (apply Rmult_le_pos; lra).
    assert (E : - 5 * x1 * x3 - 4 * x2 * x2 - 10 * x1 - 10 * x3
                - (- 4 * total * total) =
                5 / 4 * ((x1 - x3) * (x1 - x3))
                + 1 / 4 * ((x1 + x3) * (11 * total - 40))
                + 21 / 4 * ((x1 + x3) * x2)) by (subst total; field).
    revert Hsq Ht Hx E.
    generalize ((x1 - x3) * (x1 - x3)) ((x1 + x3) * (11 * total - 40))
      ((x1 + x3) * x2)
      (- 5 * x1 * x3 - 4 * x2 * x2 - 10 * x1 - 10 * x3) (- 4 * total * total).
    intros p1 p2 p3 v m ? ? ? ?. lra.
  - intros Hsmall. split; [|rewrite value_poly; f_equal; field].
    assert (Ht : 0 <= x2 * (40 - 11 * total)) by (apply Rmult_le_pos; lra).
    assert (Hx : 0 <= x2 * (x1 + x3)) by (apply Rmult_le_pos; lra).
    assert (E : - 5 * x1 * x3 - 4 * x2 * x2 - 10 * x1 - 10 * x3
                - (- (5 / 4) * total * total - 10 * total) =
                5 / 4 * ((x1 - x3) * (x1 - x3))
                + 1 / 4 * (x2 * (40 - 11 * total))
                + 21 / 4 * (x2 * (x1 + x3))) by (subst total; field).
    revert Hsq Ht Hx E.
    generalize ((x1 - x3) * (x1 - x3)) (x2 * (40 - 11 * total))
      (x2 * (x1 + x3))
      (- 5 * x1 * x3 - 4 * x2 * x2 - 10 * x1 - 10 * x3)
      (- (5 / 4) * total * total - 10 * total).
    intros p1 p2 p3 v m ? ? ? ?. lra.
Qed.

Lemma first_example_ground_state_witness :
  ∃ v, solution_value h_example J_example [400; 0; 0] = Return v ∧
       - 400 <= v ∧ (v = - 400 ↔ [400; 0; 0] = [400; 0; 0]).
Proof.
  apply (first_example_ground_state 400 [400; 0; 0]); [|reflexivity].
  split; [repeat constructor; lra|simpl; lra].
Defined.

Lemma degenerate_example_ground_states_witness :
  ∃ v, solution_value h_degenerate J_example [0; 400; 0] = Return v ∧
       - 400 <= v ∧
       (v = - 400 ↔
        [0; 400; 0] = [400; 0; 0] ∨ [0; 400; 0] = [0; 400; 0] ∨
        [0; 400; 0] = [0; 0; 400]).
Proof.
  apply (degenerate_example_ground_states 400 [0; 400; 0]); [|reflexivity].
  split; [repeat constructor; lra|simpl; lra].
Defined.

(** The run with [S = 7] of the notebook returned [[0, 7, 0]] with energy
    [-196]. *)
Lemma poly_example_minimum_witness :
  ∃ v, solution_value h_poly J_poly [0; 7; 0] = Return v ∧
    (40 <= 11 * 7 →
     - 4 * 7 * 7 <= v ∧
     solution_value h_poly J_poly [0; 7; 0] = Return (- 4 * 7 * 7)) ∧
    (11 * 7 <= 40 →
     - (5 / 4) * 7 * 7 - 10 * 7 <= v ∧
     solution_value h_poly J_poly [7 / 2; 0; 7 / 2] =
       Return (- (5 / 4) * 7 * 7 - 10 * 7)).
Proof.
  apply (poly_example_minimum 7 [0; 7; 0]); [|reflexivity].
  split; [repeat constructor; lra|simpl; lra].
Defined.
End hamiltonian_examples.

(** ** The tally of the degeneracy demonstration *)

Section tally_facts.
Import Demos.
Context {Key : Type} `{EqDecision Key}.
Implicit Types (d : list (Key * nat)) (key k : Key) (solutions l : list Key).

Lemma dict_get_None key d : dict_get key d = None ↔ key ∉ d.*1.
Proof.
  induction d as [|[k c] d IH]; simpl.
  - split; [intros _; apply not_elem_of_nil|done].
  - rewrite not_elem_of_cons. case_decide as Hk.
    + split; [done|]. intros [Hne _]. by destruct Hne.
    + rewrite IH. split; [by split|tauto].
Qed.

Lemma dict_set_new key v d :
  key ∉ d.*1 → dict_set key v d = d ++ [(key, v)].
Proof.
  induction d as [|[k c] d IH]; simpl; [done|].
  rewrite not_elem_of_cons. intros [Hne Hnot].
  rewrite decide_False by done. by rewrite IH.
Qed.

Lemma dict_set_keys key v d : key ∈ d.*1 → (dict_set key v d).*1 = d.*1.
Proof.
  induction d as [|[k c] d IH]; simpl; [by intros ?%elem_of_nil|].
  intros Hin. case_decide as Hk; [done|]. simpl. f_equal. apply IH.
  apply elem_of_cons in Hin as [->|Hin]; [done|exact Hin].
Qed.

Lemma dict_get_set key v d k :
  dict_get k (dict_set key v d) =
  if decide (k = key) then Some v else dict_get k d.
Proof.
  induction d as [|[k' c] d IH]; simpl.
  - repeat case_decide; congruence.
  - repeat (case_decide; simpl); try congruence.
Qed.

Lemma dict_set_sum key v c d :
  dict_get key d = Some c →
  sum_list (dict_set key v d).*2 + c = sum_list d.*2 + v.
Proof.
  induction d as [|[k' c'] d IH]; simpl; [done|].
  case_decide as Hk; simpl.
  - intros [= ->]. lia.
  - intros Hget. specialize (IH Hget). unfold fmap in IH |- *. lia.
Qed.

Lemma elem_of_first_seen k l : k ∈ first_seen l ↔ k ∈ l.
Proof.
  induction l as [|a l IH]; simpl; [done|].
  rewrite !elem_of_cons, list_elem_of_filter, IH.
  destruct (decide (k = a)); [by split; left|tauto].
Qed.

Lemma NoDup_first_seen l : NoDup (first_seen l).
Proof.
  induction l as [|a l IH]; simpl; [constructor|].
  constructor; [|by apply NoDup_filter].
  rewrite list_elem_of_filter. tauto.
Qed.

Lemma first_seen_snoc l k :
  first_seen (l ++ [k]) =
  if decide (k ∈ l) then first_seen l else first_seen l ++ [k].
Proof.
  induction l as [|a l IH]; cbn [app first_seen].
  - rewrite decide_False by apply not_elem_of_nil. by rewrite filter_nil.
  - rewrite IH. destruct (decide (k ∈ l)) as [Hin|Hnot].
    + by rewrite decide_True by (by right).
    + rewrite filter_app, filter_cons, filter_nil.
      destruct (decide (k = a)) as [->|Hne].
      * rewrite decide_False by (by intros ?).
        rewrite decide_True by (by left). by rewrite app_nil_r.
      * rewrite decide_True by done.
        rewrite decide_False by (rewrite elem_of_cons; tauto). done.
Qed.

Lemma occurrences_snoc key l k :
  occurrences key (l ++ [k]) =
  if decide (k = key) then S (occurrences key l) else occurrences key l.
Proof.
  unfold occurrences. rewrite filter_app, length_app, filter_cons, filter_nil.
  case_decide; simpl; lia.
Qed.

Lemma occurrences_zero key l : key ∉ l → occurrences key l = 0.
Proof.
  unfold occurrences. induction l as [|a l IH]; [done|].
  rewrite not_elem_of_cons, filter_cons. intros [Hne Hnot].
  rewrite decide_False by congruence. by apply IH.
Qed.

Lemma tally_snoc l k : tally (l ++ [k]) = tally l ≫= λ d, record d k.
Proof. unfold tally. by rewrite foldl_app. Qed.

(** What the loop has built after any number of runs. *)
Lemma tally_invariant solutions :
  ∃ d, tally solutions = Some d ∧
       labels d = first_seen solutions ∧
       (∀ key, dict_get key d =
               if decide (key ∈ solutions)
               then Some (occurrences key solutions) else None) ∧
       sum_list d.*2 = length solutions.
Proof.
  induction solutions as [|k l IH] using rev_ind.
  - exists []. by repeat split.
  - destruct IH as (d & Hd & Hlab & Hget & Hsum).
    rewrite tally_snoc, Hd. cbn [mbind option_bind]. unfold record, dict_contains.
    unfold labels in *. rewrite Hlab, first_seen_snoc.
    destruct (decide (k ∈ l)) as [Hin|Hnot].
    + rewrite bool_decide_eq_true_2 by (by apply elem_of_first_seen).
      pose proof (Hget k) as Hk. rewrite decide_True in Hk by done.
      rewrite Hk. cbn [mbind option_bind].
      eexists. split; [done|]. split; [|split].
      * rewrite dict_set_keys; [done|]. rewrite Hlab. by apply elem_of_first_seen.
      * intros key. rewrite dict_get_set, occurrences_snoc, Hget.
        destruct (decide (key = k)) as [->|Hne].
        -- rewrite !decide_True by (done || (apply elem_of_app; by left)).
           f_equal. lia.
        -- rewrite (decide_False (P := k = key)) by congruence.
           destruct (decide (key ∈ l)) as [Hl|Hl].
           ++ by rewrite decide_True by (apply elem_of_app; by left).
           ++ rewrite decide_False; [done|].
              rewrite elem_of_app, list_elem_of_singleton. tauto.
      * pose proof (dict_set_sum k (occurrences k l + 1) _ d Hk) as Hs.
        rewrite length_app. simpl. lia.
    + rewrite bool_decide_eq_false_2 by (by rewrite elem_of_first_seen).
      assert (Hnew : k ∉ d.*1) by (by rewrite Hlab, elem_of_first_seen).
      eexists. split; [done|]. rewrite dict_set_new by done. split; [|split].
      * by rewrite fmap_app, Hlab.
      * intros key. rewrite <- (dict_set_new k 1 d Hnew), dict_get_set.
        rewrite occurrences_snoc, Hget.
        destruct (decide (key = k)) as [->|Hne].
        -- rewrite !decide_True by (done || (apply elem_of_app; right; by left)).
           by rewrite occurrences_zero.
        -- rewrite (decide_False (P := k = key)) by congruence.
           destruct (decide (key ∈ l)) as [Hl|Hl].
           ++ by rewrite decide_True by (apply elem_of_app; by left).
           ++ rewrite decide_False; [done|].
              rewrite elem_of_app, list_elem_of_singleton. tauto.
      * rewrite fmap_app, sum_list_with_app, length_app. simpl. lia.
Qed.

(** X25.  The tally of solutions never fails a lookup, and after the runs
    the dictionary holds every distinct solution once, in the order of first
    appearance, each with the number of runs that returned it. *)
Theorem tally_counts_occurrences solutions :
  ∃ d, tally solutions = Some d ∧
       labels d = first_seen solutions ∧ NoDup (labels d) ∧
       (∀ key, key ∈ labels d ↔ key ∈ solutions) ∧
       (∀ key, key ∈ solutions →
               dict_get key d = Some (occurrences key solutions)) ∧
       (∀ key, key ∉ solutions → dict_get key d = None).
Proof.
  destruct (tally_invariant solutions) as (d & Hd & Hlab & Hget & _).
  exists d. split; [done|]. split; [done|]. rewrite Hlab.
  split; [apply NoDup_first_seen|]. split; [intros; apply elem_of_first_seen|].
  split; intros key Hk; rewrite Hget.
  - by rewrite decide_True.
  - by rewrite decide_False.
Qed.

Lemma sizes_values d : NoDup d.*1 → sizes d = Some d.*2.
Proof.
  unfold sizes, labels. intros Hnd. apply mapM_Some.
  apply Forall2_fmap_l, Forall2_fmap_r.
  assert (Hall : ∀ kc, kc ∈ d → dict_get kc.1 d = Some kc.2).
  { induction d as [|[k c] d IH]; [by intros ? ?%elem_of_nil|].
    apply NoDup_cons in Hnd as [Hk Hnd]. intros [k' c'] Hin. simpl.
    apply elem_of_cons in Hin as [[= -> ->]|Hin]; [by rewrite decide_True|].
    rewrite decide_False; [by apply (IH Hnd (k', c'))|].
    intros ->. apply Hk. apply list_elem_of_fmap. by exists (k', c'). }
  apply Forall2_same_length_lookup. split; [done|].
  intros i kc kc' Hi Hi'. rewrite Hi in Hi'. injection Hi' as <-.
  apply Hall. by apply list_elem_of_lookup_2 in Hi.
Qed.

(** X26.  The frequencies that are printed and plotted: [sizes] lists the
    count of each label in the order of [labels], without a failed lookup,
    and the counts add up to the number of runs. *)
Theorem tally_frequencies_sum solutions :
  ∃ d counts, tally solutions = Some d ∧ sizes d = Some counts ∧
              length counts = length (labels d) ∧
              (∀ i key c, labels d !! i = Some key → counts !! i = Some c →
                          c = occurrences key solutions) ∧
              sum_list counts = length solutions.
Proof.
  destruct (tally_invariant solutions) as (d & Hd & Hlab & Hget & Hsum).
  assert (Hnd : NoDup d.*1).
  { unfold labels in Hlab. rewrite Hlab. apply NoDup_first_seen. }
  exists d, d.*2. split; [done|]. split; [by apply sizes_values|].
  split; [unfold labels; by rewrite !length_fmap|]. split; [|done].
  intros i key c Hi Hc. unfold labels in Hi.
  rewrite list_lookup_fmap in Hi. rewrite list_lookup_fmap in Hc.
  destruct (d !! i) as [[k' c']|] eqn:Hdi; [|done].
  simpl in Hi, Hc. injection Hi as ->. injection Hc as ->.
  assert (Hkey : key ∈ solutions).
  { apply elem_of_first_seen. unfold labels in Hlab. rewrite <- Hlab.
    apply list_elem_of_fmap. exists (key, c).
    split; [done|]. by apply list_elem_of_lookup_2 in Hdi. }
  pose proof (Hget key) as Hg. rewrite decide_True in Hg by done.
  assert (Hdc : dict_get key d = Some c).
  { clear -Hdi Hnd. revert i Hdi. induction d as [|[k0 c0] d IH]; [done|].
    apply NoDup_cons in Hnd as [Hk Hnd]. intros [|i] Hdi; simpl in *.
    - injection Hdi as -> ->. by rewrite decide_True.
    - rewrite decide_False; [by apply (IH Hnd i)|].
      intros ->. apply Hk. apply list_elem_of_fmap. exists (key, c).
      split; [done|]. by apply list_elem_of_lookup_2 in Hdi. }
  congruence.
Qed.
End tally_facts.

Section tally_examples.
Import Demos.

(** Ten runs that return the two solutions of the printed tally, four and
    six times. *)
Example tally_ten_runs :
  let a := [0; 400; 0]%Z in
  let b := [400; 0; 0]%Z in
  tally [a; b; b; a; b; b; a; b; a; b] = Some [(a, 4); (b, 6)].
Proof. reflexivity. Qed.
End tally_examples.
